(** * LRA engine of scarr ([src/scarr/engines/lra_wht.py]): a shallow embedding

    Numbers.  The engine computes on float64 numpy arrays.  Finite values are
    modelled as exact rationals ([Q], compared with [Qeq]); rounding and
    overflow are not modelled.  The two divisions of the engine whose divisor
    can be zero ([u ** 2 / n_tr] in [calculate], [SSR / sst[i]] in [lra]) are
    numpy true divisions, which do not raise but produce [nan] or [inf]; their
    results live in [xnum], the rationals extended with the IEEE-754 special
    values.

    Arrays.  A 1-D array is a [list]; a 2-D array is the list of its rows.
    Indexing out of range raises in Python; here every function that can
    raise returns an [option], [None] standing for a raised exception. *)

From Stdlib Require Import ZArith QArith Qround Qpower Lia.
From stdpp Require Import base tactics option list sorting.

Local Open Scope Q_scope.

(** ** numpy operations on 1-D arrays *)

Module Np.

(** Pointwise equality of arrays of rationals. *)
Definition veq (a b : list Q) : Prop := Forall2 Qeq a b.

(** The rational [n] for a count [n]. *)
Definition qnat (n : nat) : Q := inject_Z (Z.of_nat n).

(** [np.zeros(n)] for a natural [n] *)
Definition zeros (n : nat) : list Q := replicate n 0.

(** [np.zeros(n)] for a Python integer: raises on a negative dimension. *)
Definition zeros_int (n : Z) : option (list Q) :=
  if decide (0 ≤ n)%Z then Some (zeros (Z.to_nat n)) else None.

(** Broadcasting of a 1-D array to shape [(n,)]: the array has that length
    already, or it has length 1 and its element is repeated. *)
Definition broadcast_to {A} (n : nat) (a : list A) : option (list A) :=
  if decide (length a = n) then Some a
  else match a with
       | [x] => Some (replicate n x)
       | _ => None
       end.

(** [a (op) b] on 1-D arrays, with broadcasting. *)
Definition binop {A} (f : A → A → A) (a b : list A) : option (list A) :=
  let n := if decide (length a = 1%nat) then length b else length a in
  a' ← broadcast_to n a;
  b' ← broadcast_to n b;
  Some (zip_with f a' b').

Definition add := binop Qplus.
Definition sub := binop Qminus.
Definition mul := binop Qmult.

(** [a (op)= b]: the left operand is updated in place and keeps its shape. *)
Definition iadd (a b : list Q) : option (list Q) :=
  b' ← broadcast_to (length a) b;
  Some (zip_with Qplus a b').

(** [a / c] for a scalar [c]. *)
Definition div_scalar (a : list Q) (c : Q) : list Q := map (λ x, x / c) a.

(** [np.sum(a)] *)
Definition sum (a : list Q) : Q := foldr Qplus 0 a.

(** [np.flatnonzero(a)]: the indices of the non-zero entries, ascending. *)
Fixpoint flatnonzero_from (i : nat) (a : list nat) : list nat :=
  match a with
  | [] => []
  | c :: a' =>
      if decide (c = 0%nat) then flatnonzero_from (S i) a'
      else i :: flatnonzero_from (S i) a'
  end.

Definition flatnonzero (a : list nat) : list nat := flatnonzero_from 0 a.

(** [m[idx]] for an index array [idx]: the rows of [m] at those indices. *)
Definition take_rows {A} (m : list A) (idx : list nat) : option (list A) :=
  mapM (λ i, m !! i) idx.

End Np.

(** ** AverageTraces *)

Record AverageTraces := mkAverageTraces {
  avtraces : list (list Q);
  counters : list nat
}.

(** [AverageTraces.__init__] *)
Definition AverageTraces_init (num_values trace_length : nat) : AverageTraces :=
  {| avtraces := replicate num_values (Np.zeros trace_length);
     counters := replicate num_values 0%nat |}.

(** [AverageTraces(num_values, trace_length)] for a Python integer length. *)
Definition AverageTraces_new (num_values : nat) (trace_length : Z)
  : option AverageTraces :=
  if decide (0 ≤ trace_length)%Z
  then Some (AverageTraces_init num_values (Z.to_nat trace_length))
  else None.

(** [AverageTraces.add_trace].  [counters] is a float array holding
    counts; it is kept as naturals and injected into [Q] at the division. *)
Definition add_trace (data : nat) (trace : list Q) (self : AverageTraces)
  : option AverageTraces :=
  c ← counters self !! data;
  row ← avtraces self !! data;
  new_row ← (if decide (c = 0%nat) then Some trace
             else d ← Np.sub trace row;
                  Np.add row (Np.div_scalar d (inject_Z (Z.of_nat c))));
  stored ← Np.broadcast_to (length row) new_row;
  Some {| avtraces := <[data := stored]> (avtraces self);
          counters := <[data := S c]> (counters self) |}.

(** [AverageTraces.get_data] *)
Definition get_data (self : AverageTraces) : option (list nat * list (list Q)) :=
  let avdata_snap := Np.flatnonzero (counters self) in
  avtraces_snap ← Np.take_rows (avtraces self) avdata_snap;
  Some (avdata_snap, avtraces_snap).

(** Adding a sequence of traces for one byte value, in order. *)
Fixpoint add_traces (data : nat) (traces : list (list Q)) (self : AverageTraces)
  : option AverageTraces :=
  match traces with
  | [] => Some self
  | t :: ts => self' ← add_trace data t self; add_traces data ts self'
  end.

(** The batch mean of the claim: sum the traces, divide by their number. *)
Definition batch_sum (n : nat) (traces : list (list Q)) : list Q :=
  foldl (zip_with Qplus) (Np.zeros n) traces.

Definition batch_mean (n : nat) (traces : list (list Q)) : list Q :=
  Np.div_scalar (batch_sum n traces) (inject_Z (Z.of_nat (length traces))).

(** The shape invariant the constructor establishes. *)
Definition wf_AverageTraces (num_values trace_length : nat) (self : AverageTraces) : Prop :=
  length (counters self) = num_values ∧
  length (avtraces self) = num_values ∧
  Forall (λ row, length row = trace_length) (avtraces self).

(** ** Extended numbers: the results of numpy's true division *)

Inductive xnum := Fin (q : Q) | PInf | NInf | NaN.

Module X.

(** IEEE-754 division on the special values; a zero divisor is [+0]. *)
Definition div (a b : xnum) : xnum :=
  match a, b with
  | NaN, _ | _, NaN => NaN
  | Fin x, Fin y =>
      if Qeq_bool y 0 then
        (if Qeq_bool x 0 then NaN else if Qle_bool 0 x then PInf else NInf)
      else Fin (x / y)
  | Fin _, (PInf | NInf) => Fin 0
  | PInf, Fin y => if Qle_bool 0 y then PInf else NInf
  | NInf, Fin y => if Qle_bool 0 y then NInf else PInf
  | (PInf | NInf), (PInf | NInf) => NaN
  end.

Definition sub (a b : xnum) : xnum :=
  match a, b with
  | NaN, _ | _, NaN => NaN
  | Fin x, Fin y => Fin (x - y)
  | Fin _, PInf => NInf
  | Fin _, NInf => PInf
  | PInf, PInf | NInf, NInf => NaN
  | PInf, _ => PInf
  | NInf, _ => NInf
  end.

Definition is_finite (a : xnum) : bool :=
  match a with Fin _ => true | _ => false end.

(** The order numpy's reductions use: the usual one on numbers, with [nan]
    above everything ([np.max] propagates [nan]; [np.argmax] stops at the
    first [nan]). *)
Definition leb (a b : xnum) : bool :=
  match a, b with
  | _, NaN => true
  | NaN, _ => false
  | NInf, _ => true
  | _, NInf => false
  | _, PInf => true
  | PInf, _ => false
  | Fin x, Fin y => Qle_bool x y
  end.

(** [np.maximum(a, b)] *)
Definition maximum (a b : xnum) : xnum := if leb b a then a else b.

(** [np.max(a)] of a 1-D array; raises on an empty one. *)
Definition max (a : list xnum) : option xnum :=
  match a with
  | [] => None
  | x :: a' => Some (foldl maximum x a')
  end.

(** [np.argmax(a)]: a left-to-right scan that moves to a later index only
    when its entry is not below-or-equal the current best. *)
Fixpoint argmax_from (i best_i : nat) (best : xnum) (a : list xnum) : nat :=
  match a with
  | [] => best_i
  | x :: a' =>
      if leb x best then argmax_from (S i) best_i best a'
      else argmax_from (S i) i x a'
  end.

Definition argmax (a : list xnum) : option nat :=
  match a with
  | [] => None
  | x :: a' => Some (argmax_from 1 0 x a')
  end.

End X.

(** ** 2-D arrays *)

Module Mat.

Definition ncols {A} (m : list (list A)) : nat :=
  match m with [] => 0%nat | r :: _ => length r end.

(** [m[:, j]] *)
Definition column {A} (j : nat) (m : list (list A)) : option (list A) :=
  mapM (λ row, row !! j) m.

(** [m.T] *)
Definition transpose {A} (m : list (list A)) : option (list (list A)) :=
  mapM (λ j, column j m) (seq 0 (ncols m)).

(** The 2-D array with [nrows] rows whose columns are [cols]. *)
Definition of_columns {A} (nrows : nat) (cols : list (list A)) : option (list (list A)) :=
  mapM (λ k, column k cols) (seq 0 nrows).

Definition dotZ (a b : list Z) : Z := foldr Z.add 0%Z (zip_with Z.mul a b).

(** [a @ b] on integer matrices of conforming shapes. *)
Definition matmulZ (a b : list (list Z)) : option (list (list Z)) :=
  bT ← transpose b;
  Some (map (λ ra, map (λ cb, dotZ ra cb) bT) a).

(** [h @ x] for an integer matrix [h] and a 1-D float array [x]. *)
Definition matvec (h : list (list Z)) (x : list Q) : list Q :=
  map (λ row, Np.sum (zip_with (λ c y, inject_Z c * y) row x)) h.

End Mat.

(** ** Walsh-Hadamard transform *)

(** Sylvester's construction, as [scipy.linalg.hadamard] builds it:
    [H = vstack((hstack((H, H)), hstack((H, -H))))], [lg2] times from [[1]]. *)
Fixpoint sylvester (lg2 : nat) : list (list Z) :=
  match lg2 with
  | O => [[1%Z]]
  | S k =>
      let H := sylvester k in
      zip_with app H H ++ zip_with app H (map (map Z.opp) H)
  end.

(** [scipy.linalg.hadamard(n)]: raises unless [n] is a power of two. *)
Definition hadamard (n : nat) : option (list (list Z)) :=
  let lg2 := Nat.log2 n in
  if decide ((2 ^ lg2)%nat = n) then Some (sylvester lg2) else None.

Definition WHT (x : list Q) : option (list Q) :=
  let n := length x in
  H ← hadamard n;
  Some (Np.div_scalar (Mat.matvec H x) (inject_Z (Z.of_nat n))).

Definition iWHT (x : list Q) : option (list Q) :=
  let n := length x in
  H ← hadamard n;
  Some (Mat.matvec H x).

(** ** Bit model and S-box *)

Definition model_single_bits (x : Z) (bit_width : nat) : list Z :=
  map (λ i, Z.land (Z.shiftr x (Z.of_nat i)) 1) (seq 0 bit_width) ++ [1%Z].

Definition wrapper (y : nat) : Z → list Z := λ x, model_single_bits x y.

Definition s_box_out (data : list nat) (key_byte : nat) (sbox : list Z)
  : option (list Z) :=
  mapM (λ d, sbox !! Nat.lxor d key_byte) data.

(** ** The engine object and the acquisition container *)

(** The AES S-box of [LRA.__init__]. *)
Definition aes_sbox : list Z := [
  0x63; 0x7C; 0x77; 0x7B; 0xF2; 0x6B; 0x6F; 0xC5; 0x30; 0x01; 0x67; 0x2B; 0xFE; 0xD7; 0xAB; 0x76;
  0xCA; 0x82; 0xC9; 0x7D; 0xFA; 0x59; 0x47; 0xF0; 0xAD; 0xD4; 0xA2; 0xAF; 0x9C; 0xA4; 0x72; 0xC0;
  0xB7; 0xFD; 0x93; 0x26; 0x36; 0x3F; 0xF7; 0xCC; 0x34; 0xA5; 0xE5; 0xF1; 0x71; 0xD8; 0x31; 0x15;
  0x04; 0xC7; 0x23; 0xC3; 0x18; 0x96; 0x05; 0x9A; 0x07; 0x12; 0x80; 0xE2; 0xEB; 0x27; 0xB2; 0x75;
  0x09; 0x83; 0x2C; 0x1A; 0x1B; 0x6E; 0x5A; 0xA0; 0x52; 0x3B; 0xD6; 0xB3; 0x29; 0xE3; 0x2F; 0x84;
  0x53; 0xD1; 0x00; 0xED; 0x20; 0xFC; 0xB1; 0x5B; 0x6A; 0xCB; 0xBE; 0x39; 0x4A; 0x4C; 0x58; 0xCF;
  0xD0; 0xEF; 0xAA; 0xFB; 0x43; 0x4D; 0x33; 0x85; 0x45; 0xF9; 0x02; 0x7F; 0x50; 0x3C; 0x9F; 0xA8;
  0x51; 0xA3; 0x40; 0x8F; 0x92; 0x9D; 0x38; 0xF5; 0xBC; 0xB6; 0xDA; 0x21; 0x10; 0xFF; 0xF3; 0xD2;
  0xCD; 0x0C; 0x13; 0xEC; 0x5F; 0x97; 0x44; 0x17; 0xC4; 0xA7; 0x7E; 0x3D; 0x64; 0x5D; 0x19; 0x73;
  0x60; 0x81; 0x4F; 0xDC; 0x22; 0x2A; 0x90; 0x88; 0x46; 0xEE; 0xB8; 0x14; 0xDE; 0x5E; 0x0B; 0xDB;
  0xE0; 0x32; 0x3A; 0x0A; 0x49; 0x06; 0x24; 0x5C; 0xC2; 0xD3; 0xAC; 0x62; 0x91; 0x95; 0xE4; 0x79;
  0xE7; 0xC8; 0x37; 0x6D; 0x8D; 0xD5; 0x4E; 0xA9; 0x6C; 0x56; 0xF4; 0xEA; 0x65; 0x7A; 0xAE; 0x08;
  0xBA; 0x78; 0x25; 0x2E; 0x1C; 0xA6; 0xB4; 0xC6; 0xE8; 0xDD; 0x74; 0x1F; 0x4B; 0xBD; 0x8B; 0x8A;
  0x70; 0x3E; 0xB5; 0x66; 0x48; 0x03; 0xF6; 0x0E; 0x61; 0x35; 0x57; 0xB9; 0x86; 0xC1; 0x1D; 0x9E;
  0xE1; 0xF8; 0x98; 0x11; 0x69; 0xD9; 0x8E; 0x94; 0x9B; 0x1E; 0x87; 0xE9; 0xCE; 0x55; 0x28; 0xDF;
  0x8C; 0xA1; 0x89; 0x0D; 0xBF; 0xE6; 0x42; 0x68; 0x41; 0x99; 0x2D; 0x0F; 0xB0; 0x54; 0xBB; 0x16
]%Z.

(** The fields of an [LRA] object that the work units read. *)
Record LRA := mkLRA {
  sbox : list Z;
  samples_range : Z;
  samples_start : nat;
  samples_end : nat
}.

(** A batch: [batch[0]], the plaintext bytes of the configured key-byte
    position, and [batch[-1]], the trace matrix (one row per observation). *)
Record Batch := mkBatch {
  batch_plaintext : list nat;
  batch_traces : list (list Q)
}.

(** The container, an external collaborator.  [get_batches tile_x tile_y pos]
    is the finite batch sequence [container.get_batches(tile_x, tile_y)]
    yields after [container.configure(tile_x, tile_y, [pos])]. *)
Record Container := mkContainer {
  tiles : list (Z * Z);
  model_positions : list nat;
  sample_length : nat;
  get_batches : Z → Z → nat → list Batch
}.

(** ** The store of array objects

    [u] and [v] are numpy arrays: a Python variable holds a reference to the
    array object, [+=] updates the object in place, and passing or returning
    the variable passes the reference.  The store maps references to array
    contents; computations thread it and may raise. *)

Abbreviation ref := nat.
Abbreviation store := (list (list Q)).
Definition M (A : Type) : Type := store → option (A * store).

Definition m_ret {A} (a : A) : M A := λ σ, Some (a, σ).
Definition m_bind {A B} (f : A → M B) (m : M A) : M B :=
  λ σ, match m σ with
       | Some (a, σ') => f a σ'
       | None => None
       end.
Definition m_lift {A} (o : option A) : M A := λ σ, a ← o; Some (a, σ).

#[global] Instance M_ret : MRet M := @m_ret.
#[global] Instance M_bind : MBind M := @m_bind.

(** A new array object. *)
Definition alloc (a : list Q) : M ref := λ σ, Some (length σ, σ ++ [a]).
(** The contents of an array object. *)
Definition read (r : ref) : M (list Q) := λ σ, a ← σ !! r; Some (a, σ).
Definition write (r : ref) (a : list Q) : M unit := λ σ, Some (tt, <[r := a]> σ).

(** [x += t] for a variable holding [r] and an array value [t]. *)
Definition iadd_val (r : ref) (t : list Q) : M unit :=
  a ← read r; a' ← m_lift (Np.iadd a t); write r a'.

(** [x += y] for two variables, holding [r] and [r']. *)
Definition iadd_ref (r r' : ref) : M unit :=
  b ← read r'; iadd_val r b.

(** Python's [row[start:end]] for non-negative bounds. *)
Definition slice {A} (start stop : nat) (row : list A) : list A :=
  take (stop - start) (drop start row).

(** ** LRA.update *)

(** The loop body of [update], for the observation [(t, g)]. *)
Definition update_step (t : list Q) (g : nat) (average_traces : AverageTraces)
    (n_tr : Z) (v u : ref) : M (AverageTraces * Z) :=
  average_traces' ← m_lift (add_trace g t average_traces);
  _ ← iadd_val u t;
  sq ← m_lift (Np.mul t t);
  _ ← iadd_val v sq;
  mret (average_traces', (n_tr + 1)%Z).

(** [for i in range(traces.shape[0])], reading [traces[i]] and [plaintext[i]]. *)
Fixpoint update_loop (traces : list (list Q)) (plaintext : list nat)
    (average_traces : AverageTraces) (n_tr : Z) (v u : ref)
  : M (AverageTraces * Z) :=
  match traces with
  | [] => mret (average_traces, n_tr)
  | t :: traces' =>
      match plaintext with
      | [] => m_lift None
      | g :: plaintext' =>
          '(average_traces', n_tr') ← update_step t g average_traces n_tr v u;
          update_loop traces' plaintext' average_traces' n_tr' v u
      end
  end.

(** [LRA.update]: the returned [v] and [u] are the references it was given. *)
Definition update (traces : list (list Q)) (plaintext : list nat)
    (average_traces : AverageTraces) (n_tr : Z) (v u : ref)
  : M (AverageTraces * Z * ref * ref) :=
  '(average_traces', n_tr') ← update_loop traces plaintext average_traces n_tr v u;
  mret (average_traces', n_tr', v, u).

(** ** LRA.calculate: the total sum of squares *)

(** [sst = v - (u ** 2) / n_tr] *)
Definition calc_sst (v u : list Q) (n_tr : Z) : option (list xnum) :=
  let q := map (λ x, X.div (Fin (x ^ 2)) (Fin (inject_Z n_tr))) u in
  Np.binop X.sub (map Fin v) q.

(** ** The scorer and the work units

    [np.linalg.cholesky] and [scipy.linalg.solve_triangular] are library
    routines; the engine is modelled over any implementation of them.
    [cholesky a] is the factor of the integer matrix [a], or an exception;
    [solve_triangular_lower a b] is [solve_triangular(a, b, lower=True)]. *)

Section engine.
Variable cholesky : list (list Z) → option (list (list Q)).
Variable solve_triangular_lower :
  list (list Q) → list (list Z) → option (list (list Q)).

(** The rows [0 .. n-2] of [U0_iwht] at one sample point, for [WL] the
    transform of that point's column.  The source keeps [U0_iwht] across
    sample points, but overwrites these rows at every point before it reads
    them; its last row is never written and is dropped by [[:-1]]. *)
Definition lra_project (U0_wht : list (list Q)) (WL : list Q)
  : option (list (list Q)) :=
  mapM (λ row, prod ← Np.mul row WL; iWHT prod)
       (take (length U0_wht - 1) U0_wht).

(** [np.sum((U0_iwht[:-1, key_byte]) ** 2)] *)
Definition lra_SSR (U0_iwht : list (list Q)) (key_byte : nat) : option Q :=
  col ← Mat.column key_byte U0_iwht;
  Some (Np.sum (map (λ x, x ^ 2) col)).

(** One pass of [for i in range(trace_length)]: column [i] of [R2]. *)
Definition lra_column (traces : list (list Q)) (U0_wht : list (list Q))
    (sst : list xnum) (i : nat) : option (list xnum) :=
  tcol ← Mat.column i traces;
  WL ← WHT tcol;
  U0_iwht ← lra_project U0_wht WL;
  mapM (λ key_byte,
          SSR ← lra_SSR U0_iwht key_byte;
          s ← sst !! i;
          Some (X.div (Fin SSR) s))
       (seq 0 256).

(** The whitened basis [U0]: the lines of [lra] from [intermediate_var]
    to [solve_triangular]. *)
Definition lra_basis (data : list nat) (sbox : list Z)
  : option (list (list Q)) :=
  intermediate_var ← s_box_out data 0 sbox;
  let M0 := map (wrapper 8) intermediate_var in
  M0T ← Mat.transpose M0;
  gram ← Mat.matmulZ M0T M0;
  Tm ← cholesky gram;
  TmT ← Mat.transpose Tm;
  solve_triangular_lower TmT M0T.

Definition lra (data : list nat) (traces : list (list Q)) (sbox : list Z)
    (sst : list xnum) : option (list (list xnum)) :=
  let trace_length := Mat.ncols traces in
  U0 ← lra_basis data sbox;
  U0_wht ← mapM WHT U0;
  cols ← mapM (lra_column traces U0_wht sst) (seq 0 trace_length);
  Mat.of_columns 256 cols.

(** What [calculate] hands to the scorer: the observed byte values, their
    average traces, and [sst]. *)
Definition calculate_inputs (average_traces : AverageTraces) (n_tr : Z)
    (v u : list Q) : option (list nat * list (list Q) * list xnum) :=
  '(plain, trace) ← get_data average_traces;
  sst ← calc_sst v u n_tr;
  Some (plain, trace, sst).

(** [r2_peaks = np.max(r2, axis=1)] *)
Definition r2_peaks (r2 : list (list xnum)) : option (list xnum) := mapM X.max r2.

(** [LRA.calculate]; printing the byte is not modelled. *)
Definition calculate (self : LRA) (byte_idx : nat)
    (average_traces : AverageTraces) (n_tr : Z) (v u : ref) : M nat :=
  va ← read v;
  ua ← read u;
  m_lift ('(plain, trace, sst) ← calculate_inputs average_traces n_tr va ua;
          r2 ← lra plain trace (sbox self) sst;
          peaks ← r2_peaks r2;
          X.argmax peaks).

(** The body of [for batch in container.get_batches(tile_x, tile_y)]. *)
Definition stream_step (self : LRA) (batch : Batch)
    (average_traces : AverageTraces) (n_tr : Z) (v u : ref)
  : M (AverageTraces * Z) :=
  let traces := map (slice (samples_start self) (samples_end self)) (batch_traces batch) in
  '(average_traces', tmp_n_tr, tmp_v, tmp_u) ←
    update traces (batch_plaintext batch) average_traces n_tr v u;
  _ ← iadd_ref v tmp_v;
  _ ← iadd_ref u tmp_u;
  mret (average_traces', (n_tr + tmp_n_tr)%Z).

Fixpoint stream (self : LRA) (batches : list Batch)
    (average_traces : AverageTraces) (n_tr : Z) (v u : ref)
  : M (AverageTraces * Z) :=
  match batches with
  | [] => mret (average_traces, n_tr)
  | batch :: batches' =>
      '(average_traces', n_tr') ← stream_step self batch average_traces n_tr v u;
      stream self batches' average_traces' n_tr' v u
  end.

(** The accumulation phase of [run_workload]: everything before
    [self.calculate]. *)
Definition accumulate (self : LRA) (container : Container)
    (average_traces : AverageTraces) (tile_x tile_y : Z) (model_pos : nat)
  : M (AverageTraces * Z * ref * ref) :=
  v0 ← m_lift (Np.zeros_int (samples_range self));
  v ← alloc v0;
  u0 ← m_lift (Np.zeros_int (samples_range self));
  u ← alloc u0;
  '(average_traces', n_tr) ←
    stream self (get_batches container tile_x tile_y model_pos)
           average_traces 0%Z v u;
  mret (average_traces', n_tr, v, u).

(** [LRA.run_workload] *)
Definition run_workload (self : LRA) (container : Container)
    (average_traces : AverageTraces) (tile_x tile_y : Z) (model_pos : nat)
  : M (Z * Z * nat * nat) :=
  '(average_traces', n_tr, v, u) ←
    accumulate self container average_traces tile_x tile_y model_pos;
  key_byte ← calculate self model_pos average_traces' n_tr v u;
  mret (tile_x, tile_y, model_pos, key_byte).

(** ** LRA.run *)

(** The fields [run] sets from its [samples_range] argument. *)
Definition configure_range (container : Container)
    (range : option (nat * nat)) : LRA :=
  match range with
  | None =>
      {| sbox := aes_sbox;
         samples_range := Z.of_nat (sample_length container);
         samples_start := 0;
         samples_end := sample_length container |}
  | Some (a, b) =>
      {| sbox := aes_sbox;
         samples_range := (Z.of_nat b - Z.of_nat a)%Z;
         samples_start := a;
         samples_end := b |}
  end.

(** The workload list: tiles in order, and for each tile the key-byte
    positions in the order of [container.model_positions]. *)
Definition workload (container : Container) (average_traces : list AverageTraces)
  : option (list (AverageTraces * Z * Z * nat)) :=
  mapM (λ '(tile, model_pos),
          a ← average_traces !! model_pos;
          Some (a, tile.1, tile.2, model_pos))
       (tile ← tiles container;
        model_pos ← model_positions container;
        [(tile, model_pos)]).

(** [list(container.tiles).index(tile)] *)
Fixpoint index_of (tile : Z * Z) (l : list (Z * Z)) : option nat :=
  match l with
  | [] => None
  | t :: l' => if decide (t = tile) then Some 0%nat else S <$> index_of tile l'
  end.

(** [for tile_x, tile_y, model_pos, tmp_key_byte in starmap_results]:
    append each byte to the key of its tile. *)
Fixpoint collect (tiles : list (Z * Z)) (results : list (Z * Z * nat * nat))
    (aes_key : list (list nat)) : option (list (list nat)) :=
  match results with
  | [] => Some aes_key
  | (tile_x, tile_y, model_pos, tmp_key_byte) :: results' =>
      tile_index ← index_of (tile_x, tile_y) tiles;
      key ← aes_key !! tile_index;
      collect tiles results' (<[tile_index := key ++ [tmp_key_byte]]> aes_key)
  end.

(** [pool.starmap(self.run_workload, workload)]: every unit runs in a
    worker process on its own copy of the arguments, hence on a store of
    its own; the results come back in the order of the workload.  The size
    of the pool ([os.cpu_count() / 2]) does not affect the results and is not
    modelled. *)
Definition starmap (self : LRA) (container : Container)
    (work : list (AverageTraces * Z * Z * nat))
  : option (list (Z * Z * nat * nat)) :=
  mapM (λ '(a, tile_x, tile_y, model_pos),
          fst <$> run_workload self container a tile_x tile_y model_pos [])
       work.

(** [LRA.run]; the result is [self.aes_key]. *)
Definition run (container : Container) (range : option (nat * nat))
  : option (list (list nat)) :=
  let self := configure_range container range in
  average_traces ←
    mapM (λ _, AverageTraces_new 256 (samples_range self))
         (model_positions container);
  let aes_key := map (λ _, []) (seq 0 (length (tiles container))) in
  work ← workload container average_traces;
  starmap_results ← starmap self container work;
  collect (tiles container) starmap_results aes_key.

End engine.

(** ** An instance of the two library routines

    The engine and the theorems about it are stated for every implementation
    of [np.linalg.cholesky] and [solve_triangular].  To run the engine on
    concrete inputs, this module gives one: the Cholesky-Banachiewicz
    factorisation and forward substitution, in fixed-point arithmetic with 32
    fractional bits (in place of LAPACK's float64). *)

Module Fixed.

Definition round (q : Q) : Q := Qfloor (q * inject_Z (2 ^ 32)) # (2 ^ 32).

Definition sqrt (q : Q) : Q := Z.sqrt (Qfloor (q * inject_Z (2 ^ 64))) # (2 ^ 32).

Definition dot (a b : list Q) : Q := round (Np.sum (zip_with Qmult a b)).

(** Row [i] of the factor, from the rows [Ls] above it that remain to be
    visited and the entries [cur] already computed. *)
Fixpoint chol_row (a_row : list Q) (Ls : list (list Q)) (cur : list Q)
  : option (list Q) :=
  match Ls with
  | [] =>
      d ← a_row !! length cur;
      let p := d - dot cur cur in
      if Qle_bool p 0 then None else Some (cur ++ [sqrt p])
  | Lj :: Ls' =>
      aij ← a_row !! length cur;
      ljj ← Lj !! length cur;
      chol_row a_row Ls' (cur ++ [round ((aij - dot cur Lj) / ljj)])
  end.

Fixpoint chol_rows (a Ls : list (list Q)) : option (list (list Q)) :=
  match a with
  | [] => Some Ls
  | a_row :: a' => r ← chol_row a_row Ls []; chol_rows a' (Ls ++ [r])
  end.

(** The lower-triangular factor, or [None] when a pivot is not positive. *)
Definition cholesky (a : list (list Z)) : option (list (list Q)) :=
  Ls ← chol_rows (map (map inject_Z) a) [];
  Some (map (λ r, r ++ replicate (length a - length r) 0) Ls).

(** Forward substitution on the lower triangle of [a]. *)
Fixpoint solve_rows (a b X : list (list Q)) : option (list (list Q)) :=
  match a, b with
  | [], [] => Some X
  | a_row :: a', b_row :: b' =>
      d ← a_row !! length X;
      if Qeq_bool d 0 then None
      else
        let acc :=
          foldl (λ acc '(c, x_row), zip_with (λ s x, s - c * x) acc x_row)
                b_row (zip a_row X) in
        solve_rows a' b' (X ++ [map (λ s, round (s / d)) acc])
  | _, _ => None
  end.

Definition solve_triangular_lower (a : list (list Q)) (b : list (list Z))
  : option (list (list Q)) :=
  solve_rows a (map (map inject_Z) b) [].

End Fixed.

(** ** The totals of a work unit's observations *)

(** The traces a work unit observes: the rows of every batch of its stream,
    cut to the sample range, in order. *)
Definition observations (self : LRA) (batches : list Batch) : list (list Q) :=
  batch ← batches;
  map (slice (samples_start self) (samples_end self)) (batch_traces batch).

(** The per-sample-point sum of squares of a list of traces. *)
Definition batch_sum_squares (n : nat) (traces : list (list Q)) : list Q :=
  batch_sum n (map (λ t, zip_with Qmult t t) traces).

(** ** Concrete units used to evaluate the engine *)

(** One tile, key-byte position 0, one sample point; a single batch holding
    the trace [[1]] for plaintext byte 0. *)
Definition unit_self : LRA :=
  {| sbox := aes_sbox; samples_range := 1; samples_start := 0; samples_end := 1 |}.

Definition unit_container : Container :=
  {| tiles := [(0, 0)%Z]; model_positions := [0%nat]; sample_length := 1;
     get_batches := λ _ _ _,
       [ {| batch_plaintext := [0%nat]; batch_traces := [[1]] |} ] |}.

(** One tile, two sample points, and a stream without batches. *)
Definition empty_self : LRA :=
  {| sbox := aes_sbox; samples_range := 2; samples_start := 0; samples_end := 2 |}.

Definition empty_container : Container :=
  {| tiles := [(0, 0)%Z]; model_positions := [0%nat]; sample_length := 2;
     get_batches := λ _ _ _, [] |}.

(** One tile, key-byte position 0, two sample points; a single batch in which
    every plaintext byte value [b] occurs once, with the trace [[0; b]]: the
    first sample point is constant. *)
Definition full_self : LRA :=
  {| sbox := aes_sbox; samples_range := 2; samples_start := 0; samples_end := 2 |}.

Definition full_traces : list (list Q) := map (λ b, [0; Np.qnat b]) (seq 0 256).

Definition full_container : Container :=
  {| tiles := [(0, 0)%Z]; model_positions := [0%nat]; sample_length := 2;
     get_batches := λ _ _ _,
       [ {| batch_plaintext := seq 0 256; batch_traces := full_traces |} ] |}.

(** The accumulator of that unit after its stream. *)
Definition full_average_traces : AverageTraces :=
  {| avtraces := full_traces; counters := replicate 256 1%nat |}.


(** The unit of [full_container], with its tile listed twice. *)
Definition twin_container : Container :=
  {| tiles := [(0, 0)%Z; (0, 0)%Z]; model_positions := [0%nat]; sample_length := 2;
     get_batches := λ _ _ _,
       [ {| batch_plaintext := seq 0 256; batch_traces := full_traces |} ] |}.

(** ** Reference functions used to state properties *)

(** The integer whose binary digits, least-significant first, are [bits]. *)
Definition decode_bits (bits : list Z) : Z :=
  foldr (λ b acc, (b + 2 * acc)%Z) 0%Z bits.






(** ** Facts about the array operations *)

Section np_facts.
Context {A : Type}.
Implicit Types (a b : list A) (f : A → A → A).

Lemma broadcast_to_same n a : length a = n → Np.broadcast_to n a = Some a.
Proof. intros H. unfold Np.broadcast_to. by rewrite decide_True. Qed.

Lemma broadcast_to_length n a a' :
  Np.broadcast_to n a = Some a' → length a' = n.
Proof.
  unfold Np.broadcast_to. case_decide as Hn.
  - by intros [= <-].
  - destruct a as [|x [|y a]]; intros [= <-]; by rewrite ?length_replicate.
Qed.

Lemma binop_same f a b :
  length a = length b → Np.binop f a b = Some (zip_with f a b).
Proof.
  intros H. unfold Np.binop.
  assert ((if decide (length a = 1%nat) then length b else length a) = length a)
    as -> by (case_decide; congruence).
  rewrite broadcast_to_same by done. simpl.
  by rewrite broadcast_to_same.
Qed.
End np_facts.

Lemma flatnonzero_from_spec a i b :
  b ∈ Np.flatnonzero_from i a ↔
  ∃ k c, b = (i + k)%nat ∧ a !! k = Some c ∧ c ≠ 0%nat.
Proof.
  revert i. induction a as [|c a IH]; intros i; simpl.
  - split; [by intros ?%elem_of_nil|]. by intros (k & c & _ & ? & _).
  - case_decide as Hc.
    + rewrite IH. split.
      * intros (k & c' & -> & Hk & Hc'). exists (S k), c'. split_and!; [lia|done..].
      * intros (k & c' & -> & Hk & Hc'). destruct k as [|k]; simplify_eq/=.
        exists k, c'. split_and!; [lia|done..].
    + rewrite elem_of_cons, IH. split.
      * intros [->|(k & c' & -> & Hk & Hc')].
        -- exists 0%nat, c. split_and!; [lia|done..].
        -- exists (S k), c'. split_and!; [lia|done..].
      * intros (k & c' & -> & Hk & Hc'). destruct k as [|k]; simplify_eq/=.
        -- left. lia.
        -- right. exists k, c'. split_and!; [lia|done..].
Qed.

Lemma flatnonzero_from_lb a i b : b ∈ Np.flatnonzero_from i a → (i ≤ b)%nat.
Proof. rewrite flatnonzero_from_spec. intros (k & c & -> & _). lia. Qed.

Lemma flatnonzero_from_sorted a i : StronglySorted lt (Np.flatnonzero_from i a).
Proof.
  revert i. induction a as [|c a IH]; intros i; simpl; [constructor|].
  case_decide; [apply IH|]. constructor; [apply IH|].
  apply Forall_forall. intros b Hb%flatnonzero_from_lb. lia.
Qed.

Lemma flatnonzero_spec a b :
  b ∈ Np.flatnonzero a ↔ ∃ c, a !! b = Some c ∧ c ≠ 0%nat.
Proof.
  unfold Np.flatnonzero. rewrite flatnonzero_from_spec. split.
  - intros (k & c & -> & ? & ?). by exists c.
  - intros (c & ? & ?). by exists b, c.
Qed.

Lemma take_rows_Some {A} (m : list A) idx :
  Forall (λ i, (i < length m)%nat) idx →
  ∃ rows, Np.take_rows m idx = Some rows.
Proof.
  intros H. unfold Np.take_rows. apply mapM_is_Some.
  eapply Forall_impl; [exact H|]. intros i Hi. by apply lookup_lt_is_Some.
Qed.

Lemma take_rows_lookup {A} (m : list A) idx rows k i :
  Np.take_rows m idx = Some rows → idx !! k = Some i → rows !! k = m !! i.
Proof.
  unfold Np.take_rows. rewrite mapM_Some. intros H Hk.
  destruct (Forall2_lookup_l _ _ _ _ _ H Hk) as (r & Hr & Hm). by rewrite Hr, Hm.
Qed.

Lemma take_rows_length {A} (m : list A) idx rows :
  Np.take_rows m idx = Some rows → length rows = length idx.
Proof. unfold Np.take_rows. rewrite mapM_Some. intros H. symmetry. by eapply Forall2_length. Qed.

(** ** AverageTraces: shape, frame and counting *)

Lemma AverageTraces_init_wf n l : wf_AverageTraces n l (AverageTraces_init n l).
Proof.
  unfold wf_AverageTraces, AverageTraces_init, Np.zeros. simpl.
  rewrite !length_replicate. split_and!; [done..|].
  apply Forall_replicate. by rewrite length_replicate.
Qed.

Lemma add_trace_wf n l data trace self self' :
  wf_AverageTraces n l self →
  add_trace data trace self = Some self' →
  wf_AverageTraces n l self'.
Proof.
  intros (Hc & Ha & Hrows) Hadd. unfold add_trace in Hadd.
  destruct (counters self !! data) as [c|] eqn:Hcd; simplify_eq/=.
  destruct (avtraces self !! data) as [row|] eqn:Hrd; simplify_eq/=.
  destruct (if decide (c = 0%nat) then _ else _) as [new_row|]; simplify_eq/=.
  destruct (Np.broadcast_to (length row) new_row) as [stored|] eqn:Hb; simplify_eq/=.
  unfold wf_AverageTraces. simpl. rewrite !length_insert. split_and!; [done..|].
  apply Forall_insert; [done|].
  apply broadcast_to_length in Hb. rewrite Hb.
  eapply (Forall_lookup_1 _ _ _ _ Hrows Hrd).
Qed.

(** What [add_trace] stores, when the trace has the accumulator's length. *)
Lemma add_trace_unfold n l data trace self c row :
  wf_AverageTraces n l self →
  length trace = l →
  counters self !! data = Some c →
  avtraces self !! data = Some row →
  add_trace data trace self =
    Some {| avtraces :=
              <[data := if decide (c = 0%nat) then trace
                        else zip_with Qplus row
                               (Np.div_scalar (zip_with Qminus trace row)
                                  (inject_Z (Z.of_nat c)))]> (avtraces self);
            counters := <[data := S c]> (counters self) |}.
Proof.
  intros (Hc & Ha & Hrows) Hl Hcd Hrd.
  assert (length row = l) as Hrow by eapply (Forall_lookup_1 _ _ _ _ Hrows Hrd).
  unfold add_trace. rewrite Hcd, Hrd. simpl. case_decide; simpl.
  - rewrite broadcast_to_same by congruence. done.
  - unfold Np.sub, Np.add. rewrite binop_same by congruence. simpl.
    rewrite binop_same; simpl.
    2:{ unfold Np.div_scalar. rewrite length_map, length_zip_with. lia. }
    rewrite broadcast_to_same; [done|].
    unfold Np.div_scalar. rewrite length_zip_with, length_map, length_zip_with. lia.
Qed.

Lemma add_trace_frame data trace self self' w :
  add_trace data trace self = Some self' →
  w ≠ data →
  counters self' !! w = counters self !! w ∧
  avtraces self' !! w = avtraces self !! w.
Proof.
  intros Hadd Hw. unfold add_trace in Hadd.
  destruct (counters self !! data) as [c|]; simplify_eq/=.
  destruct (avtraces self !! data) as [row|]; simplify_eq/=.
  destruct (if decide (c = 0%nat) then _ else _) as [new_row|]; simplify_eq/=.
  destruct (Np.broadcast_to (length row) new_row) as [stored|]; simplify_eq/=.
  split; by rewrite list_lookup_insert_ne.
Qed.

Lemma add_trace_counter data trace self self' c :
  add_trace data trace self = Some self' →
  counters self !! data = Some c →
  counters self' !! data = Some (S c).
Proof.
  intros Hadd Hc. unfold add_trace in Hadd. rewrite Hc in Hadd. simpl in Hadd.
  destruct (avtraces self !! data) as [row|]; simplify_eq/=.
  destruct (if decide (c = 0%nat) then _ else _) as [new_row|]; simplify_eq/=.
  destruct (Np.broadcast_to (length row) new_row) as [stored|]; simplify_eq/=.
  apply list_lookup_insert_eq. by eapply lookup_lt_Some.
Qed.

(** The counter of a byte value counts the traces added for it. *)
Lemma add_traces_counter data traces self self' c :
  add_traces data traces self = Some self' →
  counters self !! data = Some c →
  counters self' !! data = Some (c + length traces)%nat.
Proof.
  revert self c. induction traces as [|t ts IH]; intros self c Hadd Hc; simpl in *.
  - simplify_eq. by rewrite Nat.add_0_r.
  - destruct (add_trace data t self) as [self1|] eqn:H1; simplify_eq/=.
    rewrite (IH self1 (S c) Hadd (add_trace_counter _ _ _ _ _ H1 Hc)).
    f_equal. lia.
Qed.

Lemma get_data_spec n l self :
  wf_AverageTraces n l self →
  ∃ rows, get_data self = Some (Np.flatnonzero (counters self), rows) ∧
          length rows = length (Np.flatnonzero (counters self)) ∧
          ∀ k b, Np.flatnonzero (counters self) !! k = Some b →
                 rows !! k = avtraces self !! b.
Proof.
  intros (Hc & Ha & _). unfold get_data.
  destruct (take_rows_Some (avtraces self) (Np.flatnonzero (counters self)))
    as [rows Hrows].
  { apply Forall_forall. intros b (c & Hb & _)%flatnonzero_spec.
    apply lookup_lt_Some in Hb. lia. }
  exists rows. rewrite Hrows. simpl. split_and!; [done| |].
  - by eapply take_rows_length.
  - intros k b Hk. by eapply take_rows_lookup.
Qed.

(** ** Pointwise reasoning on arrays of rationals *)


Lemma veq_refl a : Np.veq a a.
Proof. apply Forall_Forall2_diag, Forall_forall. intros; reflexivity. Qed.




Lemma veq_length a b : Np.veq a b → length a = length b.
Proof. apply Forall2_length. Qed.



(** ** The running update of [add_trace] against the batch mean *)




(** C1 (failing input): adding the traces [[0]] and [[2]] for byte value 0
    leaves the stored average at [[2]], whereas their mean is [[1]]; the
    counter is 2, the number of traces added. *)
Theorem add_trace_mean_off_by_one :
  ∃ self',
    add_traces 0 [[0]; [2]] (AverageTraces_init 256 1) = Some self' ∧
    avtraces self' !! 0%nat = Some [2] ∧
    counters self' !! 0%nat = Some 2%nat ∧
    Np.veq (batch_mean 1 [[0]; [2]]) [1] ∧
    ¬ Np.veq [2] (batch_mean 1 [[0]; [2]]).
Proof.
  eexists. split_and!.
  - vm_compute. reflexivity.
  - reflexivity.
  - reflexivity.
  - repeat constructor.
  - intros H. inversion H as [|? ? ? ? Hq]; subst. vm_compute in Hq. discriminate.
Qed.

(** C5: [get_data] returns exactly the byte values with a non-zero counter,
    in ascending order, each paired with its average trace at the same
    position; a byte value whose counter is zero is absent. *)
Theorem get_data_nonzero_ascending n l self :
  wf_AverageTraces n l self →
  ∃ idx rows,
    get_data self = Some (idx, rows) ∧
    (∀ b, b ∈ idx ↔ ∃ c, counters self !! b = Some c ∧ c ≠ 0%nat) ∧
    StronglySorted lt idx ∧
    length rows = length idx ∧
    (∀ k b, idx !! k = Some b → rows !! k = avtraces self !! b) ∧
    (∀ b, counters self !! b = Some 0%nat → b ∉ idx).
Proof.
  intros Hwf. destruct (get_data_spec n l self Hwf) as (rows & Hget & Hlen & Hrows).
  exists (Np.flatnonzero (counters self)), rows. split_and!; try done.
  - apply flatnonzero_spec.
  - apply flatnonzero_from_sorted.
  - intros b Hb (c & Hc & Hne)%flatnonzero_spec. congruence.
Qed.

Lemma get_data_nonzero_ascending_witness :
  ∃ idx rows,
    get_data {| avtraces := [[0]; [5]; [0]; [7]]; counters := [0; 2; 0; 1]%nat |}
      = Some (idx, rows) ∧
    (∀ b, b ∈ idx ↔
          ∃ c, [0; 2; 0; 1]%nat !! b = Some c ∧ c ≠ 0%nat) ∧
    StronglySorted lt idx ∧
    length rows = length idx ∧
    (∀ k b, idx !! k = Some b → rows !! k = [[0]; [5]; [0]; [7]] !! b) ∧
    (∀ b, [0; 2; 0; 1]%nat !! b = Some 0%nat → b ∉ idx).
Proof.
  apply (get_data_nonzero_ascending 4 1
           {| avtraces := [[0]; [5]; [0]; [7]]; counters := [0; 2; 0; 1]%nat |}).
  unfold wf_AverageTraces. simpl. split_and!; [reflexivity..|].
  repeat constructor.
Defined.

(** C10: [add_trace(b, t)] returns and leaves [counters[w]] and
    [averages[w]] as they were for every byte value [w] other than [b]. *)
Theorem add_trace_changes_only_its_byte n l b t self :
  wf_AverageTraces n l self → (b < n)%nat → length t = l →
  ∃ self',
    add_trace b t self = Some self' ∧
    ∀ w, w ≠ b →
         counters self' !! w = counters self !! w ∧
         avtraces self' !! w = avtraces self !! w.
Proof.
  intros Hwf Hb Ht.
  destruct Hwf as (Hc & Ha & Hrows).
  destruct (lookup_lt_is_Some_2 (counters self) b) as [c Hcb]; [lia|].
  destruct (lookup_lt_is_Some_2 (avtraces self) b) as [row Hrb]; [lia|].
  eexists. split.
  - eapply add_trace_unfold; eauto. by split_and!.
  - intros w Hw. simpl. split; by rewrite list_lookup_insert_ne.
Qed.

Lemma add_trace_changes_only_its_byte_witness :
  ∃ self',
    add_trace 1 [3; 4] (AverageTraces_init 4 2) = Some self' ∧
    ∀ w, w ≠ 1%nat →
         counters self' !! w = counters (AverageTraces_init 4 2) !! w ∧
         avtraces self' !! w = avtraces (AverageTraces_init 4 2) !! w.
Proof.
  apply (add_trace_changes_only_its_byte 4 2 1 [3; 4] (AverageTraces_init 4 2)).
  - apply AverageTraces_init_wf.
  - lia.
  - reflexivity.
Defined.

(** ** The Hadamard matrix and the transform pair *)

Section hadamard_facts.

(** The dot product [Mat.matvec] takes of a matrix row and the vector. *)
Local Abbreviation dotq r x :=
  (Np.sum (zip_with (λ (c : Z) (y : Q), inject_Z c * y) r x)).
Local Abbreviation vadd := (zip_with Qplus).
Local Abbreviation vsub := (zip_with Qminus).
Local Abbreviation vscale c := (map (Qmult c)).













Lemma matvec_length h x : length (Mat.matvec h x) = length h.
Proof. unfold Mat.matvec. by rewrite length_map. Qed.





Lemma sylvester_shape k :
  length (sylvester k) = (2 ^ k)%nat ∧
  Forall (λ r, length r = (2 ^ k)%nat) (sylvester k).
Proof.
  induction k as [|k [IHl IHr]].
  - split; [done|]. by repeat constructor.
  - cbn [sylvester]. rewrite zip_with_diag, zip_with_fmap_r, zip_with_diag.
    split.
    + rewrite length_app, !length_map, IHl. simpl. lia.
    + apply Forall_app. split; apply Forall_fmap;
        (eapply Forall_impl; [exact IHr|]); intros r Hr; simpl;
        rewrite length_app, ?length_map, Hr; simpl; lia.
Qed.



End hadamard_facts.

Lemma hadamard_pow2 k : hadamard (2 ^ k) = Some (sylvester k).
Proof.
  unfold hadamard. rewrite Nat.log2_pow2 by lia. by rewrite decide_True.
Qed.

Lemma WHT_pow2 k x :
  length x = (2 ^ k)%nat →
  WHT x = Some (Np.div_scalar (Mat.matvec (sylvester k) x) (Np.qnat (2 ^ k))).
Proof. intros Hx. unfold WHT. rewrite Hx, hadamard_pow2. done. Qed.

Lemma iWHT_pow2 k x :
  length x = (2 ^ k)%nat → iWHT x = Some (Mat.matvec (sylvester k) x).
Proof. intros Hx. unfold iWHT. rewrite Hx, hadamard_pow2. done. Qed.

Lemma WHT_length x y : WHT x = Some y → length y = length x.
Proof.
  unfold WHT, hadamard. case_decide as Hn; [|done]. simpl. intros [= <-].
  unfold Np.div_scalar. rewrite length_map, matvec_length.
  destruct (sylvester_shape (Nat.log2 (length x))) as [-> _]. done.
Qed.

Lemma iWHT_length x y : iWHT x = Some y → length y = length x.
Proof.
  unfold iWHT, hadamard. case_decide as Hn; [|done]. simpl. intros [= <-].
  rewrite matvec_length.
  destruct (sylvester_shape (Nat.log2 (length x))) as [-> _]. done.
Qed.






(** ** The bit model *)

Lemma land_shiftr_bit x i :
  (0 ≤ i)%Z → Z.land (Z.shiftr x i) 1 = Z.b2z (Z.testbit x i).
Proof.
  intros Hi. change 1%Z with (Z.ones 1). rewrite Z.land_ones by lia.
  change (2 ^ 1)%Z with 2%Z. rewrite <- Z.bit0_mod, Z.shiftr_spec by lia.
  by rewrite Z.add_0_l.
Qed.

(** C8: the bit model of [x] at width [w] has length [w + 1]; its entry [i],
    for [i < w], is bit [i] of [x], least-significant first; its last entry
    is the constant 1. *)
Theorem model_single_bits_spec (x : Z) (w : nat) :
  (0 ≤ x < 256)%Z → (1 ≤ w ≤ 8)%nat →
  length (model_single_bits x w) = (w + 1)%nat ∧
  (∀ i, (i < w)%nat →
        model_single_bits x w !! i = Some (Z.b2z (Z.testbit x (Z.of_nat i)))) ∧
  model_single_bits x w !! w = Some 1%Z ∧
  last (model_single_bits x w) = Some 1%Z.
Proof.
  intros _ _. unfold model_single_bits. split_and!.
  - rewrite length_app, length_map, length_seq. done.
  - intros i Hi. rewrite lookup_app_l by (rewrite length_map, length_seq; lia).
    rewrite list_lookup_fmap, lookup_seq_lt by done. simpl.
    f_equal. apply land_shiftr_bit. lia.
  - rewrite lookup_app_r by (rewrite length_map, length_seq; lia).
    rewrite length_map, length_seq, Nat.sub_diag. done.
  - apply last_snoc.
Qed.

Lemma model_single_bits_spec_witness :
  length (model_single_bits 0x53 8) = (8 + 1)%nat ∧
  (∀ i, (i < 8)%nat →
        model_single_bits 0x53 8 !! i = Some (Z.b2z (Z.testbit 0x53 (Z.of_nat i)))) ∧
  model_single_bits 0x53 8 !! 8%nat = Some 1%Z ∧
  last (model_single_bits 0x53 8) = Some 1%Z.
Proof.
  apply (model_single_bits_spec 0x53 8); lia.
Defined.

(** ** Accumulation in a work unit *)

(** C2 (failing input): for the unit whose stream is one batch with the
    single trace [[1]], the sum of the samples is [[1]], the sum of squares
    [[1]] and the count 1, giving [sst = [0]]; the unit ends accumulation
    with [u = [2]], [v = [2]] and [n_tr = 1], and forms [sst = [-2]]. *)
Theorem run_workload_sums_doubled :
  let obs := observations unit_self (get_batches unit_container 0 0 0%nat) in
  batch_sum 1 obs = [1] ∧
  batch_sum_squares 1 obs = [1] ∧
  length obs = 1%nat ∧
  calc_sst [1] [1] 1 = Some [Fin 0] ∧
  ∃ average_traces n_tr v u σ,
    accumulate unit_self unit_container (AverageTraces_init 256 1) 0 0 0 []
      = Some ((average_traces, n_tr, v, u), σ) ∧
    σ !! u = Some [2] ∧
    σ !! v = Some [2] ∧
    n_tr = 1%Z ∧
    calc_sst [2] [2] n_tr = Some [Fin (-2)].
Proof.
  simpl. split_and!; try reflexivity.
  eexists _, _, _, _, _. split_and!.
  - vm_compute. reflexivity.
  - reflexivity.
  - reflexivity.
  - reflexivity.
  - reflexivity.
Qed.

Lemma zeros_add_zeros l : zip_with Qplus (Np.zeros l) (Np.zeros l) = Np.zeros l.
Proof. unfold Np.zeros. induction l; simpl; [done|]. by f_equal. Qed.

Lemma zeros_int_nat l : Np.zeros_int (Z.of_nat l) = Some (Np.zeros l).
Proof.
  unfold Np.zeros_int. rewrite decide_True by lia. by rewrite Nat2Z.id.
Qed.



Lemma m_bind_run {A B} (m : M A) (f : A → M B) σ a σ' :
  m σ = Some (a, σ') → (m ≫= f) σ = f a σ'.
Proof. intros H. unfold mbind, M_bind, m_bind. by rewrite H. Qed.

Lemma m_bind_fail {A B} (m : M A) (f : A → M B) σ :
  m σ = None → (m ≫= f) σ = None.
Proof. intros H. unfold mbind, M_bind, m_bind. by rewrite H. Qed.

Lemma m_ret_run {A} (a : A) σ : (mret a : M A) σ = Some (a, σ).
Proof. done. Qed.

Lemma iadd_val_run r t a a' (σ : store) :
  σ !! r = Some a → Np.iadd a t = Some a' →
  iadd_val r t σ = Some (tt, <[r := a']> σ).
Proof.
  intros Hr Ha. unfold iadd_val.
  rewrite (m_bind_run (read r) _ σ a σ) by (unfold read; by rewrite Hr).
  rewrite (m_bind_run (m_lift (Np.iadd a t)) _ σ a' σ) by (unfold m_lift; by rewrite Ha).
  done.
Qed.

Lemma iadd_ref_run r r' a b a' (σ : store) :
  σ !! r' = Some b → σ !! r = Some a → Np.iadd a b = Some a' →
  iadd_ref r r' σ = Some (tt, <[r := a']> σ).
Proof.
  intros Hr' Hr Ha. unfold iadd_ref.
  rewrite (m_bind_run (read r') _ σ b σ) by (unfold read; by rewrite Hr').
  by apply iadd_val_run with a.
Qed.

Lemma stream_step_no_observations self b average_traces l (v u : ref) (σ : store) :
  batch_traces b = [] →
  σ !! v = Some (Np.zeros l) → σ !! u = Some (Np.zeros l) →
  stream_step self b average_traces 0 v u σ = Some ((average_traces, 0%Z), σ).
Proof.
  intros Hb Hv Hu. unfold stream_step, update. rewrite Hb. cbn [map update_loop].
  assert (Np.iadd (Np.zeros l) (Np.zeros l) = Some (Np.zeros l)) as Hz.
  { unfold Np.iadd. rewrite broadcast_to_same by done. cbn. by rewrite zeros_add_zeros. }
  erewrite m_bind_run; last first.
  { erewrite m_bind_run by apply m_ret_run. apply m_ret_run. }
  cbn beta iota.
  erewrite m_bind_run by (eapply iadd_ref_run; eauto).
  rewrite list_insert_id by done.
  erewrite m_bind_run by (eapply iadd_ref_run; eauto).
  rewrite list_insert_id by done.
  done.
Qed.

(** A stream without observations leaves the accumulators as they are. *)
Lemma stream_no_observations self batches average_traces l (v u : ref) (σ : store) :
  Forall (λ b, batch_traces b = []) batches →
  σ !! v = Some (Np.zeros l) → σ !! u = Some (Np.zeros l) →
  stream self batches average_traces 0 v u σ = Some ((average_traces, 0%Z), σ).
Proof.
  intros Hb Hv Hu. induction Hb as [|b batches Hb _ IH]; [done|].
  cbn [stream].
  erewrite m_bind_run by (eapply stream_step_no_observations; eauto).
  exact IH.
Qed.

Lemma alloc_run a (σ : store) : alloc a σ = Some (length σ, σ ++ [a]).
Proof. done. Qed.

Lemma m_lift_run {A} (o : option A) a (σ : store) :
  o = Some a → m_lift o σ = Some (a, σ).
Proof. intros ->. done. Qed.

Lemma accumulate_no_observations self container average_traces tile_x tile_y pos l :
  samples_range self = Z.of_nat l →
  Forall (λ b, batch_traces b = []) (get_batches container tile_x tile_y pos) →
  accumulate self container average_traces tile_x tile_y pos []
    = Some ((average_traces, 0%Z, 0%nat, 1%nat), [Np.zeros l; Np.zeros l]).
Proof.
  intros Hl Hb. unfold accumulate. rewrite Hl.
  erewrite m_bind_run by (apply m_lift_run, zeros_int_nat).
  erewrite m_bind_run by apply alloc_run.
  erewrite m_bind_run by (apply m_lift_run, zeros_int_nat).
  erewrite m_bind_run by apply alloc_run.
  erewrite m_bind_run by (eapply (stream_no_observations _ _ _ l); eauto).
  done.
Qed.

Lemma calc_sst_zero_count l :
  calc_sst (Np.zeros l) (Np.zeros l) 0 = Some (replicate l NaN).
Proof.
  unfold calc_sst. rewrite binop_same by (by rewrite !length_map).
  f_equal. unfold Np.zeros. induction l; simpl; [done|]. by f_equal.
Qed.

Section engine_facts.
Variable cholesky : list (list Z) → option (list (list Q)).
Variable solve_triangular_lower :
  list (list Q) → list (list Z) → option (list (list Q)).

Local Abbreviation lra' := (lra cholesky solve_triangular_lower).
Local Abbreviation calculate' := (calculate cholesky solve_triangular_lower).
Local Abbreviation run_workload' := (run_workload cholesky solve_triangular_lower).

(** [calculate] reads [v] and [u] and leaves the store as it is. *)
Lemma calculate_run self byte_idx average_traces n_tr (v u : ref) (σ : store) va ua :
  σ !! v = Some va → σ !! u = Some ua →
  calculate' self byte_idx average_traces n_tr v u σ =
    (w ← ('(plain, trace, sst) ← calculate_inputs average_traces n_tr va ua;
          r2 ← lra' plain trace (sbox self) sst;
          peaks ← r2_peaks r2;
          X.argmax peaks);
     Some (w, σ)).
Proof.
  intros Hv Hu. unfold calculate.
  erewrite m_bind_run by (unfold read; by rewrite Hv).
  erewrite m_bind_run by (unfold read; by rewrite Hu).
  done.
Qed.

(** C7 (as the code behaves): a work unit whose stream yields no
    observation is not detected.  Accumulation ends normally with
    [n_tr = 0]; [calculate] forms [sst] by dividing by that count, which
    makes every entry [nan]; and the scorer is invoked with this [sst], the
    unit returning whatever the scorer and the peak reduction return. *)
Theorem empty_stream_reaches_scorer self container average_traces tile_x tile_y pos l :
  samples_range self = Z.of_nat l →
  Forall (λ b, batch_traces b = []) (get_batches container tile_x tile_y pos) →
  accumulate self container average_traces tile_x tile_y pos []
    = Some ((average_traces, 0%Z, 0%nat, 1%nat), [Np.zeros l; Np.zeros l]) ∧
  calc_sst (Np.zeros l) (Np.zeros l) 0 = Some (replicate l NaN) ∧
  run_workload' self container average_traces tile_x tile_y pos [] =
    (key_byte ← ('(plain, trace) ← get_data average_traces;
                 r2 ← lra' plain trace (sbox self) (replicate l NaN);
                 peaks ← r2_peaks r2;
                 X.argmax peaks);
     Some ((tile_x, tile_y, pos, key_byte), [Np.zeros l; Np.zeros l])).
Proof.
  intros Hl Hb.
  pose proof (accumulate_no_observations self container average_traces
                tile_x tile_y pos l Hl Hb) as Hacc.
  split_and!; [done|apply calc_sst_zero_count|].
  unfold run_workload. erewrite m_bind_run by exact Hacc. cbn beta iota.
  unfold mbind at 1, M_bind, m_bind.
  rewrite (calculate_run self pos average_traces 0 0 1 _ (Np.zeros l) (Np.zeros l))
    by done.
  unfold calculate_inputs. rewrite calc_sst_zero_count.
  destruct (get_data average_traces) as [[plain trace]|]; [|done]. cbn.
  destruct (lra' plain trace (sbox self) (replicate l NaN)) as [r2|]; [|done]. cbn.
  destruct (r2_peaks r2) as [peaks|]; [|done]. cbn.
  destruct (X.argmax peaks); done.
Qed.

End engine_facts.

Lemma empty_stream_reaches_scorer_witness :
  accumulate empty_self empty_container (AverageTraces_init 256 2) 0 0 0 []
    = Some ((AverageTraces_init 256 2, 0%Z, 0%nat, 1%nat), [Np.zeros 2; Np.zeros 2]) ∧
  calc_sst (Np.zeros 2) (Np.zeros 2) 0 = Some (replicate 2 NaN) ∧
  run_workload Fixed.cholesky Fixed.solve_triangular_lower
      empty_self empty_container (AverageTraces_init 256 2) 0 0 0 [] =
    (key_byte ← ('(plain, trace) ← get_data (AverageTraces_init 256 2);
                 r2 ← lra Fixed.cholesky Fixed.solve_triangular_lower plain trace
                        (sbox empty_self) (replicate 2 NaN);
                 peaks ← r2_peaks r2;
                 X.argmax peaks);
     Some ((0%Z, 0%Z, 0%nat, key_byte), [Np.zeros 2; Np.zeros 2])).
Proof.
  apply (empty_stream_reaches_scorer Fixed.cholesky Fixed.solve_triangular_lower
           empty_self empty_container (AverageTraces_init 256 2) 0 0 0 2).
  - reflexivity.
  - simpl. constructor.
Defined.

(** C7 (counterexample): the unit with an empty stream ends accumulation
    normally, with [n_tr = 0] and nothing reported, and [calculate] hands the
    scorer an [sst] whose entries are [0/0 = nan]: the division by the zero
    count has taken place. *)
Lemma empty_stream_not_detected :
  accumulate empty_self empty_container (AverageTraces_init 256 2) 0 0 0 []
    = Some ((AverageTraces_init 256 2, 0%Z, 0%nat, 1%nat), [[0; 0]; [0; 0]]) ∧
  calculate_inputs (AverageTraces_init 256 2) 0 [0; 0] [0; 0]
    = Some ([], [], [NaN; NaN]).
Proof. split; vm_compute; reflexivity. Qed.

(** ** The order of the reductions, [np.max] and [np.argmax] *)

Lemma leb_refl a : X.leb a a = true.
Proof. destruct a; simpl; try done. apply Qle_bool_iff, Qle_refl. Qed.

Lemma leb_total a b : X.leb a b = false → X.leb b a = true.
Proof.
  destruct a, b; simpl; try done.
  intros H. apply Qle_bool_iff. apply Qlt_le_weak, Qnot_le_lt.
  intros Hle%Qle_bool_iff. congruence.
Qed.

Lemma leb_trans a b c : X.leb a b = true → X.leb b c = true → X.leb a c = true.
Proof.
  destruct a, b, c; simpl; try done.
  rewrite !Qle_bool_iff. apply Qle_trans.
Qed.

Lemma maximum_cases a b :
  (X.maximum a b = a ∨ X.maximum a b = b) ∧
  X.leb a (X.maximum a b) = true ∧ X.leb b (X.maximum a b) = true.
Proof.
  unfold X.maximum. destruct (X.leb b a) eqn:Hba.
  - split_and!; [by left|apply leb_refl|done].
  - split_and!; [by right|by apply leb_total|apply leb_refl].
Qed.

Lemma foldl_maximum_spec a x :
  foldl X.maximum x a ∈ x :: a ∧
  ∀ y, y ∈ x :: a → X.leb y (foldl X.maximum x a) = true.
Proof.
  revert x. induction a as [|z a IH]; intros x; simpl.
  - split; [left|]. intros y ->%list_elem_of_singleton. apply leb_refl.
  - destruct (IH (X.maximum x z)) as [Hin Hub].
    destruct (maximum_cases x z) as (Hm & Hx & Hz).
    split.
    + apply elem_of_cons in Hin as [Hin|Hin]; [|right; by right].
      rewrite Hin. destruct Hm as [->| ->]; [left|right; left].
    + intros y [->|[->|Hy]%elem_of_cons]%elem_of_cons.
      * eapply leb_trans; [exact Hx|]. apply Hub. left.
      * eapply leb_trans; [exact Hz|]. apply Hub. left.
      * apply Hub. by right.
Qed.

Lemma max_spec a p :
  X.max a = Some p → p ∈ a ∧ ∀ y, y ∈ a → X.leb y p = true.
Proof.
  destruct a as [|x a]; [done|]. simpl. intros [= <-]. apply foldl_maximum_spec.
Qed.

Lemma max_is_Some a : a ≠ [] → is_Some (X.max a).
Proof. destruct a; [done|]. by eexists. Qed.

(** The scan of [np.argmax], started after a prefix [pre] whose first
    maximum is [best] at [best_i], ends at the first maximum of the array. *)
Lemma argmax_from_spec a :
  ∀ pre best_i best,
    pre !! best_i = Some best →
    (∀ h ph, pre !! h = Some ph → X.leb ph best = true) →
    (∀ h ph, (h < best_i)%nat → pre !! h = Some ph → X.leb best ph = false) →
    ∃ pw,
      (pre ++ a) !! X.argmax_from (length pre) best_i best a = Some pw ∧
      (∀ h ph, (pre ++ a) !! h = Some ph → X.leb ph pw = true) ∧
      (∀ h ph, (h < X.argmax_from (length pre) best_i best a)%nat →
               (pre ++ a) !! h = Some ph → X.leb pw ph = false).
Proof.
  induction a as [|x a IH]; intros pre best_i best Hbest Hub Hfirst; simpl.
  - rewrite app_nil_r. eauto.
  - destruct (X.leb x best) eqn:Hx.
    + specialize (IH (pre ++ [x]) best_i best).
      rewrite length_app, Nat.add_1_r, <- app_assoc in IH. simpl in IH.
      apply IH.
      * by apply lookup_app_l_Some.
      * intros h ph [Hh|[_ Hh]]%lookup_app_Some; [by eapply Hub|].
        destruct (h - length pre)%nat; simplify_eq/=. done.
      * intros h ph Hlt Hh. apply lookup_lt_Some in Hbest.
        rewrite lookup_app_l in Hh by lia. by eapply Hfirst.
    + specialize (IH (pre ++ [x]) (length pre) x).
      rewrite length_app, Nat.add_1_r, <- app_assoc in IH. simpl in IH.
      apply IH.
      * rewrite lookup_app_r by lia. by rewrite Nat.sub_diag.
      * intros h ph [Hh|[_ Hh]]%lookup_app_Some.
        -- eapply leb_trans; [by eapply Hub|]. by apply leb_total.
        -- destruct (h - length pre)%nat; simplify_eq/=. apply leb_refl.
      * intros h ph Hlt Hh. rewrite lookup_app_l in Hh by lia.
        destruct (X.leb x ph) eqn:Hxp; [|done].
        rewrite (leb_trans x ph best Hxp) in Hx; [done|by eapply Hub].
Qed.

Lemma argmax_spec a :
  a ≠ [] →
  ∃ w pw,
    X.argmax a = Some w ∧ a !! w = Some pw ∧
    (∀ h ph, a !! h = Some ph → X.leb ph pw = true) ∧
    (∀ h ph, (h < w)%nat → a !! h = Some ph → X.leb pw ph = false).
Proof.
  destruct a as [|x a]; [done|]. intros _.
  destruct (argmax_from_spec a [x] 0 x) as (pw & Hw & Hub & Hfirst).
  - done.
  - intros [|h] ph Hh; simplify_eq/=. apply leb_refl.
  - intros h ph Hh. lia.
  - exists (X.argmax_from 1 0 x a), pw. done.
Qed.

(** ** Shapes of 2-D arrays *)

Lemma mapM_Forall2 {A B} (f : A → option B) l k :
  mapM f l = Some k → Forall2 (λ x y, f x = Some y) l k.
Proof. apply mapM_Some_1. Qed.

Lemma mapM_lookup {A B} (f : A → option B) l k i y :
  mapM f l = Some k → k !! i = Some y → ∃ x, l !! i = Some x ∧ f x = Some y.
Proof.
  intros H Hy. apply mapM_Forall2 in H.
  destruct (Forall2_lookup_r _ _ _ _ _ H Hy) as (x & ? & ?). eauto.
Qed.

Lemma mapM_seq_lookup {B} (f : nat → option B) n k i y :
  mapM f (seq 0 n) = Some k → k !! i = Some y → (i < n)%nat ∧ f i = Some y.
Proof.
  intros H Hy. destruct (mapM_lookup _ _ _ _ _ H Hy) as (x & Hx & Hf).
  apply lookup_seq in Hx as [-> ?]. done.
Qed.

Lemma mapM_seq_length {B} (f : nat → option B) n k :
  mapM f (seq 0 n) = Some k → length k = n.
Proof. intros H%length_mapM. by rewrite length_seq in H. Qed.

Lemma mapM_Forall_Some {A B} (f : A → option B) l :
  Forall (λ x, is_Some (f x)) l → ∃ k, mapM f l = Some k.
Proof. intros H. by apply mapM_is_Some. Qed.

Lemma mapM_Forall_out {A B} (f : A → option B) (P : B → Prop) l k :
  mapM f l = Some k → (∀ x y, x ∈ l → f x = Some y → P y) → Forall P k.
Proof.
  intros H HP. apply Forall_forall. intros y Hy.
  apply list_elem_of_lookup in Hy as [i Hi].
  destruct (mapM_lookup _ _ _ _ _ H Hi) as (x & Hx & Hf).
  eapply HP; [|done]. by eapply list_elem_of_lookup_2.
Qed.

Lemma column_length {A} j (m : list (list A)) c :
  Mat.column j m = Some c → length c = length m.
Proof. intros H%length_mapM. done. Qed.

Lemma column_lookup {A} j (m : list (list A)) c k x :
  Mat.column j m = Some c → c !! k = Some x →
  ∃ row, m !! k = Some row ∧ row !! j = Some x.
Proof. intros H Hx. by eapply mapM_lookup in H. Qed.

Lemma column_is_Some {A} j (m : list (list A)) :
  Forall (λ row, (j < length row)%nat) m → ∃ c, Mat.column j m = Some c.
Proof.
  intros H. apply mapM_Forall_Some. eapply Forall_impl; [exact H|].
  intros row Hrow. by apply lookup_lt_is_Some.
Qed.

Lemma of_columns_length {A} n (cols : list (list A)) R :
  Mat.of_columns n cols = Some R →
  length R = n ∧ Forall (λ row, length row = length cols) R.
Proof.
  intros H. split; [by eapply mapM_seq_length|].
  eapply mapM_Forall_out; [exact H|]. intros k row _ Hrow. simpl in *.
  by eapply column_length.
Qed.

Lemma of_columns_lookup {A} n (cols : list (list A)) R k row i x :
  Mat.of_columns n cols = Some R → R !! k = Some row → row !! i = Some x →
  ∃ col, cols !! i = Some col ∧ col !! k = Some x.
Proof.
  intros H Hrow Hx. destruct (mapM_seq_lookup _ _ _ _ _ H Hrow) as [_ Hcol].
  by eapply column_lookup.
Qed.

Lemma of_columns_is_Some {A} n (cols : list (list A)) :
  Forall (λ col, length col = n) cols → ∃ R, Mat.of_columns n cols = Some R.
Proof.
  intros H. apply mapM_Forall_Some, Forall_forall. intros k Hk%elem_of_seq.
  destruct (column_is_Some k cols) as [c Hc]; [|by eexists].
  eapply Forall_impl; [exact H|]. intros col ->. simpl. lia.
Qed.

Lemma ncols_rect {A} (m : list (list A)) l :
  m ≠ [] → Forall (λ row, length row = l) m → Mat.ncols m = l.
Proof. destruct m as [|r m]; [done|]. intros _ H. by inversion H. Qed.

(** ** The scorer *)

Lemma sum_squares_nonneg (col : list Q) : 0 <= Np.sum (map (λ x, x ^ 2) col).
Proof.
  unfold Np.sum. induction col as [|x col IH]; simpl; [apply Qle_refl|].
  apply (Qplus_le_compat 0 (x ^ 2) 0 _ (Qsqr_nonneg x) IH).
Qed.

(** The outcome of dividing a sum of squares by a zero [sst]. *)
Lemma div_by_zero_sst SSR z :
  0 <= SSR → z == 0 →
  (X.div (Fin SSR) (Fin z) = NaN ∧ SSR == 0) ∨
  (X.div (Fin SSR) (Fin z) = PInf ∧ ¬ SSR == 0).
Proof.
  intros Hs Hz. simpl.
  rewrite (proj2 (Qeq_bool_iff z 0) Hz).
  destruct (Qeq_bool SSR 0) eqn:He.
  - left. split; [done|]. by apply Qeq_bool_iff.
  - right. rewrite (proj2 (Qle_bool_iff 0 SSR) Hs). split; [done|].
    intros H%Qeq_bool_iff. congruence.
Qed.

Section scorer_facts.
Variable cholesky : list (list Z) → option (list (list Q)).
Variable solve_triangular_lower :
  list (list Q) → list (list Z) → option (list (list Q)).

Local Abbreviation lra_basis' := (lra_basis cholesky solve_triangular_lower).
Local Abbreviation lra' := (lra cholesky solve_triangular_lower).

Lemma lra_SSR_nonneg U0_iwht key_byte SSR :
  lra_SSR U0_iwht key_byte = Some SSR → 0 <= SSR.
Proof.
  unfold lra_SSR. intros (col & _ & [= <-])%bind_Some.
  apply sum_squares_nonneg.
Qed.

(** Every entry of a column of [R2] is a sum of squares divided by the
    [sst] of that sample point. *)
Lemma lra_column_entry traces U0_wht sst i col k r :
  lra_column traces U0_wht sst i = Some col → col !! k = Some r →
  ∃ SSR s, sst !! i = Some s ∧ 0 <= SSR ∧ r = X.div (Fin SSR) s.
Proof.
  unfold lra_column. intros H Hr.
  apply bind_Some in H as (tcol & _ & H).
  apply bind_Some in H as (WL & _ & H).
  apply bind_Some in H as (U0_iwht & _ & H).
  destruct (mapM_seq_lookup _ _ _ _ _ H Hr) as [_ He].
  apply bind_Some in He as (SSR & HSSR & He).
  apply bind_Some in He as (s & Hs & [= <-]).
  exists SSR, s. split_and!; [done| |done]. by eapply lra_SSR_nonneg.
Qed.

Lemma lra_column_length traces U0_wht sst i col :
  lra_column traces U0_wht sst i = Some col → length col = 256%nat.
Proof.
  unfold lra_column. intros H.
  apply bind_Some in H as (tcol & _ & H).
  apply bind_Some in H as (WL & _ & H).
  apply bind_Some in H as (U0_iwht & _ & H).
  by eapply mapM_seq_length.
Qed.

Lemma lra_shape data traces sbox sst R2 :
  lra' data traces sbox sst = Some R2 →
  length R2 = 256%nat ∧ Forall (λ row, length row = Mat.ncols traces) R2.
Proof.
  unfold lra. intros H.
  apply bind_Some in H as (U0 & _ & H).
  apply bind_Some in H as (U0_wht & _ & H).
  apply bind_Some in H as (cols & Hcols & H).
  apply of_columns_length in H as [? Hrows].
  by rewrite (mapM_seq_length _ _ _ Hcols) in Hrows.
Qed.

Lemma lra_entry data traces sbox sst R2 k row i r :
  lra' data traces sbox sst = Some R2 →
  R2 !! k = Some row → row !! i = Some r →
  ∃ SSR s, sst !! i = Some s ∧ 0 <= SSR ∧ r = X.div (Fin SSR) s.
Proof.
  unfold lra. intros H Hrow Hr.
  apply bind_Some in H as (U0 & _ & H).
  apply bind_Some in H as (U0_wht & _ & H).
  apply bind_Some in H as (cols & Hcols & H).
  destruct (of_columns_lookup _ _ _ _ _ _ _ H Hrow Hr) as (col & Hcol & Hk).
  destruct (mapM_seq_lookup _ _ _ _ _ Hcols Hcol) as [_ Hc].
  by eapply lra_column_entry.
Qed.

Lemma lra_project_is_Some U0_wht WL :
  Forall (λ r, length r = 256%nat) U0_wht → length WL = 256%nat →
  ∃ U, lra_project U0_wht WL = Some U ∧ Forall (λ r, length r = 256%nat) U.
Proof.
  intros HU HWL. unfold lra_project.
  destruct (mapM_Forall_Some
              (λ row, prod ← Np.mul row WL; iWHT prod)
              (take (length U0_wht - 1) U0_wht)) as [U HUi].
  - apply Forall_take. eapply Forall_impl; [exact HU|]. intros row Hrow. simpl.
    unfold Np.mul. rewrite binop_same by congruence.
    eexists. apply bind_Some. eexists. split; [done|].
    apply (iWHT_pow2 8). rewrite length_zip_with. rewrite Hrow, HWL. done.
  - exists U. split; [done|].
    eapply mapM_Forall_out; [exact HUi|]. intros row y Hin Hy. simpl in Hy.
    apply bind_Some in Hy as (prod & Hprod & Hy).
    apply iWHT_length in Hy. rewrite Hy.
    apply (subseteq_take _ _ _) in Hin.
    unfold Np.mul in Hprod.
    rewrite binop_same in Hprod.
    + injection Hprod as <-. rewrite length_zip_with.
      rewrite (proj1 (Forall_forall _ _) HU row Hin), HWL. done.
    + rewrite (proj1 (Forall_forall _ _) HU row Hin), HWL. done.
Qed.

Lemma lra_column_is_Some traces U0_wht sst l i :
  length traces = 256%nat → Forall (λ r, length r = l) traces →
  Forall (λ r, length r = 256%nat) U0_wht →
  (i < l)%nat → (l ≤ length sst)%nat →
  ∃ col, lra_column traces U0_wht sst i = Some col.
Proof.
  intros Ht Hrows HU Hi Hsst. unfold lra_column.
  destruct (column_is_Some i traces) as [tcol Htcol].
  { eapply Forall_impl; [exact Hrows|]. intros row ->. done. }
  pose proof (column_length _ _ _ Htcol) as Hlen. rewrite Ht in Hlen.
  pose proof (WHT_pow2 8 tcol Hlen) as HWL.
  pose proof (WHT_length _ _ HWL) as HWLlen. rewrite Hlen in HWLlen.
  destruct (lra_project_is_Some U0_wht _ HU HWLlen) as (U & HUe & HUrows).
  destruct (mapM_Forall_Some
              (λ key_byte, SSR ← lra_SSR U key_byte; s ← sst !! i;
                           Some (X.div (Fin SSR) s))
              (seq 0 256)) as [col Hcol].
  - apply Forall_forall. intros key_byte Hk%elem_of_seq.
    destruct (column_is_Some key_byte U) as [c Hc].
    { eapply Forall_impl; [exact HUrows|]. intros row ->. lia. }
    destruct (lookup_lt_is_Some_2 sst i) as [s Hs]; [lia|].
    eexists. apply bind_Some. eexists. split.
    { unfold lra_SSR. rewrite Hc. done. }
    rewrite Hs. done.
  - exists col. apply bind_Some. exists tcol. split; [done|].
    apply bind_Some. eexists. split; [exact HWL|].
    apply bind_Some. exists U. split; [done|]. exact Hcol.
Qed.

(** The scorer returns when all 256 byte values were observed, the
    library routines return a basis over them, and [sst] covers the sample
    points. *)
Lemma lra_is_Some data traces sbox sst l U0 :
  lra_basis' data sbox = Some U0 →
  Forall (λ r, length r = 256%nat) U0 →
  length traces = 256%nat → Forall (λ r, length r = l) traces →
  (l ≤ length sst)%nat →
  ∃ R2, lra' data traces sbox sst = Some R2.
Proof.
  intros HU0 HU0rows Ht Hrows Hsst. unfold lra.
  destruct (mapM_Forall_Some WHT U0) as [U0_wht HU0_wht].
  { eapply Forall_impl; [exact HU0rows|]. intros row Hrow.
    eexists. by apply (WHT_pow2 8). }
  assert (Forall (λ r, length r = 256%nat) U0_wht) as HUw.
  { eapply mapM_Forall_out; [exact HU0_wht|]. intros row y Hin Hy.
    rewrite (WHT_length _ _ Hy).
    by apply (proj1 (Forall_forall _ _) HU0rows). }
  assert (Mat.ncols traces = l) as Hl.
  { apply ncols_rect; [|done]. intros ->. done. }
  destruct (mapM_Forall_Some (lra_column traces U0_wht sst) (seq 0 l))
    as [cols Hcols].
  { apply Forall_forall. intros i Hi%elem_of_seq.
    eapply lra_column_is_Some; eauto. lia. }
  destruct (of_columns_is_Some 256 cols) as [R2 HR2].
  { eapply mapM_Forall_out; [exact Hcols|]. intros i col _ Hcol.
    by eapply lra_column_length. }
  exists R2. apply bind_Some. exists U0. split; [done|].
  apply bind_Some. exists U0_wht. split; [done|].
  apply bind_Some. exists cols. rewrite Hl. done.
Qed.

End scorer_facts.

(** ** The peak reduction *)

Lemma r2_peaks_spec r2 :
  Forall (λ row, row ≠ []) r2 →
  ∃ peaks,
    r2_peaks r2 = Some peaks ∧ length peaks = length r2 ∧
    Forall2 (λ row p, p ∈ row ∧ ∀ x, x ∈ row → X.leb x p = true) r2 peaks.
Proof.
  intros Hne. unfold r2_peaks.
  destruct (mapM_Forall_Some X.max r2) as [peaks Hpeaks].
  { eapply Forall_impl; [exact Hne|]. intros row. apply max_is_Some. }
  exists peaks. split_and!; [done|symmetry; by eapply length_mapM|].
  eapply Forall2_impl; [by apply mapM_Forall2|]. intros row p. apply max_spec.
Qed.

(** A row holding [nan] or [+inf] has a peak that is [nan] or [+inf]. *)
Lemma max_nonfinite row r p :
  X.max row = Some p → r ∈ row → r = NaN ∨ r = PInf → p = NaN ∨ p = PInf.
Proof.
  intros [_ Hub]%max_spec Hr Hnf. specialize (Hub r Hr).
  destruct Hnf as [-> | ->]; destruct p; simplify_eq/=; eauto.
Qed.

Section calculate_facts.
Variable cholesky : list (list Z) → option (list (list Q)).
Variable solve_triangular_lower :
  list (list Q) → list (list Z) → option (list (list Q)).

Local Abbreviation lra' := (lra cholesky solve_triangular_lower).
Local Abbreviation calculate' := (calculate cholesky solve_triangular_lower).

Lemma calculate_returns self byte_idx average_traces n_tr (v u : ref)
    (σ : store) va ua plain trace sst r2 :
  σ !! v = Some va → σ !! u = Some ua →
  calculate_inputs average_traces n_tr va ua = Some (plain, trace, sst) →
  lra' plain trace (sbox self) sst = Some r2 →
  (0 < Mat.ncols trace)%nat →
  ∃ peaks w pw,
    calculate' self byte_idx average_traces n_tr v u σ = Some (w, σ) ∧
    r2_peaks r2 = Some peaks ∧
    length peaks = 256%nat ∧
    Forall2 (λ row p, p ∈ row ∧ ∀ x, x ∈ row → X.leb x p = true) r2 peaks ∧
    peaks !! w = Some pw ∧
    (∀ h ph, peaks !! h = Some ph → X.leb ph pw = true) ∧
    (∀ h ph, (h < w)%nat → peaks !! h = Some ph → X.leb pw ph = false).
Proof.
  intros Hv Hu Hin Hlra Hl.
  destruct (lra_shape _ _ _ _ _ _ _ Hlra) as [Hlen Hrows].
  destruct (r2_peaks_spec r2) as (peaks & Hpeaks & Hplen & Hmax).
  { eapply Forall_impl; [exact Hrows|]. intros row Hrow ->. simpl in Hrow. lia. }
  destruct (argmax_spec peaks) as (w & pw & Hw & Hpw & Hub & Hfirst).
  { intros ->. simpl in Hplen. lia. }
  exists peaks, w, pw. split_and!; try done; [|congruence].
  rewrite (calculate_run _ _ self byte_idx average_traces n_tr v u σ va ua Hv Hu).
  rewrite Hin. cbn [mbind option_bind]. rewrite Hlra. cbn [mbind option_bind].
  rewrite Hpeaks. cbn [mbind option_bind]. rewrite Hw. done.
Qed.

(** Where [sst] is zero, every hypothesis gets [nan] or [+inf], and so
    does its peak. *)
Lemma lra_zero_sst data traces sbox sst R2 i z k row r :
  lra' data traces sbox sst = Some R2 →
  sst !! i = Some (Fin z) → z == 0 →
  R2 !! k = Some row → row !! i = Some r →
  (∃ SSR, 0 <= SSR ∧ r = X.div (Fin SSR) (Fin z)) ∧
  (r = NaN ∨ r = PInf) ∧
  (∀ peaks p, r2_peaks R2 = Some peaks → peaks !! k = Some p →
              p = NaN ∨ p = PInf).
Proof.
  intros Hlra Hs Hz Hrow Hr.
  destruct (lra_entry _ _ _ _ _ _ _ _ _ _ _ Hlra Hrow Hr)
    as (SSR & s & Hs' & Hpos & ->).
  rewrite Hs in Hs'. injection Hs' as <-.
  assert (X.div (Fin SSR) (Fin z) = NaN ∨ X.div (Fin SSR) (Fin z) = PInf) as Hnf.
  { destruct (div_by_zero_sst SSR z Hpos Hz) as [[-> _]|[-> _]]; eauto. }
  split_and!; [by exists SSR|done|].
  intros peaks p Hpeaks Hp. unfold r2_peaks in Hpeaks.
  destruct (mapM_lookup _ _ _ _ _ Hpeaks Hp) as (row' & Hrow' & Hmax).
  rewrite Hrow in Hrow'. injection Hrow' as <-.
  eapply max_nonfinite; [exact Hmax| |exact Hnf].
  by eapply list_elem_of_lookup_2.
Qed.

End calculate_facts.

(** ** The unit that observes every byte value *)

Lemma full_accumulate :
  accumulate full_self full_container (AverageTraces_init 256 2) 0 0 0 []
    = Some ((full_average_traces, 256%Z, 0%nat, 1%nat),
            [[0; 11119360]; [0; 65280]]).
Proof. vm_compute. reflexivity. Qed.

Lemma full_calculate_inputs :
  calculate_inputs full_average_traces 256 [0; 11119360] [0; 65280]
    = Some (seq 0 256, full_traces, [Fin (0 # 256); Fin (-1414922240 # 256)]).
Proof. vm_compute. reflexivity. Qed.

Lemma full_basis :
  ∃ U0, lra_basis Fixed.cholesky Fixed.solve_triangular_lower (seq 0 256) aes_sbox
          = Some U0 ∧
        Forall (λ r, length r = 256%nat) U0.
Proof.
  eexists. split.
  - vm_compute. reflexivity.
  - apply (bool_decide_unpack _). vm_compute. exact I.
Qed.

Lemma full_lra :
  ∃ r2, lra Fixed.cholesky Fixed.solve_triangular_lower
            (seq 0 256) full_traces aes_sbox [Fin (0 # 256); Fin (-1414922240 # 256)] = Some r2.
Proof.
  destruct full_basis as (U0 & HU0 & Hrows).
  eapply (lra_is_Some _ _ _ _ _ _ 2 U0 HU0 Hrows).
  - unfold full_traces. by rewrite length_map, length_seq.
  - unfold full_traces. apply Forall_fmap, Forall_forall. done.
  - simpl. lia.
Qed.

Lemma full_lra_shape r2 :
  lra Fixed.cholesky Fixed.solve_triangular_lower
      (seq 0 256) full_traces aes_sbox [Fin (0 # 256); Fin (-1414922240 # 256)]
    = Some r2 →
  length r2 = 256%nat ∧ Forall (λ row, length row = 2%nat) r2.
Proof. intros H. by apply lra_shape in H. Qed.

Lemma length_two {A} (l : list A) : length l = 2%nat → ∃ a b, l = [a; b].
Proof. destruct l as [|a [|b [|? ?]]]; intros [=]. by exists a, b. Qed.

(** C4: [calculate] returns; the peak of each hypothesis row is a maximum of
    that row over the sample points; the returned index holds a largest
    peak, and every earlier index holds a strictly smaller one (the first
    maximum).  The order is the one of numpy's reductions, in which [nan]
    ranks above every number. *)
Theorem calculate_first_max cholesky solve_triangular_lower
    self byte_idx average_traces n_tr (v u : ref) (σ : store) va ua
    plain trace sst r2 :
  σ !! v = Some va → σ !! u = Some ua →
  calculate_inputs average_traces n_tr va ua = Some (plain, trace, sst) →
  lra cholesky solve_triangular_lower plain trace (sbox self) sst = Some r2 →
  (0 < Mat.ncols trace)%nat →
  ∃ peaks w pw,
    calculate cholesky solve_triangular_lower self byte_idx average_traces
              n_tr v u σ = Some (w, σ) ∧
    r2_peaks r2 = Some peaks ∧
    length peaks = 256%nat ∧
    Forall2 (λ row p, p ∈ row ∧ ∀ x, x ∈ row → X.leb x p = true) r2 peaks ∧
    peaks !! w = Some pw ∧
    (∀ h ph, peaks !! h = Some ph → X.leb ph pw = true) ∧
    (∀ h ph, (h < w)%nat → peaks !! h = Some ph → X.leb pw ph = false).
Proof. apply calculate_returns. Qed.

Lemma calculate_first_max_witness :
  ∃ r2,
    lra Fixed.cholesky Fixed.solve_triangular_lower (seq 0 256) full_traces
        (sbox full_self) [Fin (0 # 256); Fin (-1414922240 # 256)] = Some r2 ∧
    ∃ peaks w pw,
      calculate Fixed.cholesky Fixed.solve_triangular_lower full_self 0
                full_average_traces 256 0 1 [[0; 11119360]; [0; 65280]]
        = Some (w, [[0; 11119360]; [0; 65280]]) ∧
      r2_peaks r2 = Some peaks ∧
      length peaks = 256%nat ∧
      Forall2 (λ row p, p ∈ row ∧ ∀ x, x ∈ row → X.leb x p = true) r2 peaks ∧
      peaks !! w = Some pw ∧
      (∀ h ph, peaks !! h = Some ph → X.leb ph pw = true) ∧
      (∀ h ph, (h < w)%nat → peaks !! h = Some ph → X.leb pw ph = false).
Proof.
  destruct full_lra as [r2 Hr2]. exists r2. split; [exact Hr2|].
  apply (calculate_first_max Fixed.cholesky Fixed.solve_triangular_lower
           full_self 0 full_average_traces 256 0 1
           [[0; 11119360]; [0; 65280]] [0; 11119360] [0; 65280]
           (seq 0 256) full_traces
           [Fin (0 # 256); Fin (-1414922240 # 256)] r2).
  - reflexivity.
  - reflexivity.
  - exact full_calculate_inputs.
  - exact Hr2.
  - vm_compute. lia.
Defined.

(** C6 (as the code behaves): where [sst] is zero at a sample point, the
    division is carried out all the same.  The R² of every hypothesis at
    that point is [SSR / 0], that is [nan] when [SSR] is zero and [+inf]
    otherwise; it is neither clamped nor left out of the peak reduction: the
    peak of every hypothesis is [nan] or [+inf]. *)
Theorem lra_divides_by_zero_sst cholesky solve_triangular_lower
    data traces sbox sst R2 i z k row r :
  lra cholesky solve_triangular_lower data traces sbox sst = Some R2 →
  sst !! i = Some (Fin z) → z == 0 →
  R2 !! k = Some row → row !! i = Some r →
  (∃ SSR, 0 <= SSR ∧ r = X.div (Fin SSR) (Fin z)) ∧
  (r = NaN ∨ r = PInf) ∧
  (∀ peaks p, r2_peaks R2 = Some peaks → peaks !! k = Some p →
              p = NaN ∨ p = PInf).
Proof. apply lra_zero_sst. Qed.

Lemma lra_divides_by_zero_sst_witness :
  ∃ R2 row r,
    lra Fixed.cholesky Fixed.solve_triangular_lower (seq 0 256) full_traces
        aes_sbox [Fin (0 # 256); Fin (-1414922240 # 256)] = Some R2 ∧
    R2 !! 0%nat = Some row ∧ row !! 0%nat = Some r ∧
    (∃ SSR, 0 <= SSR ∧ r = X.div (Fin SSR) (Fin (0 # 256))) ∧
    (r = NaN ∨ r = PInf) ∧
    (∀ peaks p, r2_peaks R2 = Some peaks → peaks !! 0%nat = Some p →
                p = NaN ∨ p = PInf).
Proof.
  destruct full_lra as [R2 HR2].
  destruct (full_lra_shape R2 HR2) as [Hlen Hrows].
  destruct (lookup_lt_is_Some_2 R2 0) as [row Hrow]; [lia|].
  destruct (lookup_lt_is_Some_2 row 0) as [r Hr].
  { rewrite (proj1 (Forall_lookup _ _) Hrows 0%nat row Hrow). lia. }
  exists R2, row, r. split_and!; [exact HR2|exact Hrow|exact Hr|..];
    apply (lra_divides_by_zero_sst Fixed.cholesky Fixed.solve_triangular_lower
             (seq 0 256) full_traces aes_sbox
             [Fin (0 # 256); Fin (-1414922240 # 256)] R2 0 (0 # 256) 0 row r
             HR2 eq_refl eq_refl Hrow Hr).
Defined.

(** C6 (counterexample): the unit that observes every byte value once, with
    a first sample point that is constant.  [calculate] hands the scorer an
    [sst] that is zero at that point.  The scorer returns an R² surface in
    which, for every hypothesis, the entry at that point is not finite (so
    it was not clamped to zero) while the entry at the other point is
    finite; and the peak of every hypothesis is not finite (so the point was
    not left out of the reduction). *)
Lemma lra_zero_sst_unguarded :
  ∃ z r2 peaks,
    calculate_inputs full_average_traces 256 [0; 11119360] [0; 65280]
      = Some (seq 0 256, full_traces, [Fin z; Fin (-1414922240 # 256)]) ∧
    z == 0 ∧
    lra Fixed.cholesky Fixed.solve_triangular_lower (seq 0 256) full_traces
        aes_sbox [Fin z; Fin (-1414922240 # 256)] = Some r2 ∧
    r2_peaks r2 = Some peaks ∧
    length r2 = 256%nat ∧ length peaks = 256%nat ∧
    (∀ k row, r2 !! k = Some row →
              ∃ r0 r1, row = [r0; r1] ∧
                       X.is_finite r0 = false ∧ X.is_finite r1 = true) ∧
    (∀ k p, peaks !! k = Some p → X.is_finite p = false).
Proof.
  destruct full_lra as [r2 Hr2].
  destruct (full_lra_shape r2 Hr2) as [Hlen Hrows].
  destruct (r2_peaks_spec r2) as (peaks & Hpeaks & Hplen & _).
  { eapply Forall_impl; [exact Hrows|]. by intros row Hrow ->. }
  exists (0 # 256), r2, peaks.
  split_and!; [exact full_calculate_inputs|reflexivity|exact Hr2|exact Hpeaks
              |exact Hlen|congruence|..].
  - intros k row Hrow.
    pose proof (proj1 (Forall_lookup _ _) Hrows k row Hrow) as Hl.
    apply length_two in Hl as (r0 & r1 & ->).
    exists r0, r1. split_and!; [done|..].
    + destruct (lra_zero_sst _ _ _ _ _ _ _ 0 (0 # 256) k [r0; r1] r0 Hr2
                  eq_refl eq_refl Hrow eq_refl)
        as (_ & [-> | ->] & _); reflexivity.
    + destruct (lra_entry _ _ _ _ _ _ _ k [r0; r1] 1 r1 Hr2 Hrow eq_refl)
        as (SSR & s & Hs & _ & ->).
      injection Hs as <-. reflexivity.
  - intros k p Hp.
    destruct (mapM_lookup _ _ _ _ _ Hpeaks Hp) as (row & Hrow & _).
    pose proof (proj1 (Forall_lookup _ _) Hrows k row Hrow) as Hl.
    apply length_two in Hl as (r0 & r1 & ->).
    destruct (lra_zero_sst _ _ _ _ _ _ _ 0 (0 # 256) k [r0; r1] r0 Hr2
                eq_refl eq_refl Hrow eq_refl)
      as (_ & _ & Hpk).
    destruct (Hpk peaks p Hpeaks Hp) as [-> | ->]; reflexivity.
Qed.

(** ** Assembling the keys *)


(** The tile of a result. *)
Local Abbreviation result_tile r := ((r.1.1.1, r.1.1.2) : Z * Z).



Lemma map_const_replicate {A B} (x : B) (l : list A) :
  map (λ _, x) l = replicate (length l) x.
Proof. induction l; simpl; [done|]. by f_equal. Qed.




Section run_facts.
Variable cholesky : list (list Z) → option (list (list Q)).
Variable solve_triangular_lower :
  list (list Q) → list (list Z) → option (list (list Q)).

Local Abbreviation run_workload' := (run_workload cholesky solve_triangular_lower).
Local Abbreviation run' := (run cholesky solve_triangular_lower).



End run_facts.

(** ** A complete run *)

Lemma full_run_workload :
  ∃ key_byte σ,
    run_workload Fixed.cholesky Fixed.solve_triangular_lower
      full_self full_container (AverageTraces_init 256 2) 0 0 0 []
    = Some ((0%Z, 0%Z, 0%nat, key_byte), σ).
Proof.
  destruct full_lra as [r2 Hr2].
  destruct (calculate_returns Fixed.cholesky Fixed.solve_triangular_lower
              full_self 0 full_average_traces 256 0 1
              [[0; 11119360]; [0; 65280]] [0; 11119360] [0; 65280]
              (seq 0 256) full_traces
              [Fin (0 # 256); Fin (-1414922240 # 256)] r2
              eq_refl eq_refl full_calculate_inputs Hr2)
    as (peaks & w & pw & Hcalc & _).
  { vm_compute. lia. }
  exists w, [[0; 11119360]; [0; 65280]].
  unfold run_workload. erewrite m_bind_run by exact full_accumulate.
  cbn beta iota. erewrite m_bind_run by exact Hcalc. done.
Qed.

(** A run over one tile and the single key-byte position 0. *)
Lemma run_single cholesky solve_triangular_lower container range tile a key_byte σ :
  tiles container = [tile] → model_positions container = [0%nat] →
  AverageTraces_new 256 (samples_range (configure_range container range)) = Some a →
  run_workload cholesky solve_triangular_lower (configure_range container range)
    container a tile.1 tile.2 0 [] = Some ((tile.1, tile.2, 0%nat, key_byte), σ) →
  run cholesky solve_triangular_lower container range = Some [[key_byte]].
Proof.
  intros Htiles Hpos Hnew Hrun. unfold run, workload, starmap.
  rewrite Htiles, Hpos. cbn [mapM mbind option_bind list_bind app mret option_ret].
  rewrite Hnew. cbn [mapM mbind option_bind fmap option_fmap option_map
                     mret option_ret lookup list_lookup fst snd].
  rewrite Hrun. cbn. rewrite decide_True by (by destruct tile). done.
Qed.

Lemma full_run :
  ∃ key_byte,
    run Fixed.cholesky Fixed.solve_triangular_lower full_container None
    = Some [[key_byte]].
Proof.
  destruct full_run_workload as (kb & σ & Hrun). exists kb.
  apply (run_single _ _ full_container None (0, 0)%Z (AverageTraces_init 256 2) kb σ).
  - reflexivity.
  - reflexivity.
  - reflexivity.
  - exact Hrun.
Qed.




Lemma add_trace_is_Some n l data trace self :
  wf_AverageTraces n l self → (data < n)%nat → length trace = l →
  ∃ self', add_trace data trace self = Some self'.
Proof.
  intros Hwf Hd Ht. pose proof Hwf as (Hc & Ha & _).
  destruct (lookup_lt_is_Some_2 (counters self) data) as [c Hcd]; [lia|].
  destruct (lookup_lt_is_Some_2 (avtraces self) data) as [row Hrd]; [lia|].
  eexists. by eapply add_trace_unfold.
Qed.

(** ** What the accumulation of one batch computes *)








(** * Further properties of the accumulator *)

(** X1: a successful [add_trace] keeps the shape of the accumulator: as many
    counters and rows as before, and rows of the accumulator's length. *)
Theorem add_trace_keeps_shape n l data trace self self' :
  wf_AverageTraces n l self →
  add_trace data trace self = Some self' →
  wf_AverageTraces n l self'.
Proof. apply add_trace_wf. Qed.

Lemma add_trace_keeps_shape_witness :
  wf_AverageTraces 4 2
    {| avtraces := [[0; 0]; [3; 4]; [0; 0]; [0; 0]];
       counters := [0; 1; 0; 0]%nat |}.
Proof.
  apply (add_trace_keeps_shape 4 2 1 [3; 4] (AverageTraces_init 4 2)).
  - apply AverageTraces_init_wf.
  - reflexivity.
Defined.

(** X2: for an in-range byte value and traces of the accumulator's length,
    adding the traces one after the other returns, raises the counter of the
    byte value by their number and leaves every other counter as it was. *)
Theorem add_traces_counts n l data traces self c :
  wf_AverageTraces n l self → (data < n)%nat →
  Forall (λ t, length t = l) traces →
  counters self !! data = Some c →
  ∃ self',
    add_traces data traces self = Some self' ∧
    counters self' !! data = Some (c + length traces)%nat ∧
    ∀ w, w ≠ data → counters self' !! w = counters self !! w.
Proof.
  intros Hwf Hd Hts. revert self c Hwf.
  induction Hts as [|t ts Ht _ IH]; intros self c Hwf Hc.
  - exists self. simpl. rewrite Nat.add_0_r. done.
  - destruct (add_trace_is_Some n l data t self Hwf Hd Ht) as [self1 H1].
    destruct (IH self1 (S c)) as (self' & Hadd & Hcount & Hframe).
    + by eapply add_trace_wf.
    + by eapply add_trace_counter.
    + exists self'. split_and!.
      * simpl. rewrite H1. exact Hadd.
      * rewrite Hcount. f_equal. simpl. lia.
      * intros w Hw. rewrite (Hframe w Hw).
        by apply (add_trace_frame data t self self1 w).
Qed.

Lemma add_traces_counts_witness :
  ∃ self',
    add_traces 1 [[3; 4]; [5; 6]; [7; 8]] (AverageTraces_init 4 2) = Some self' ∧
    counters self' !! 1%nat = Some (0 + length [[3; 4]; [5; 6]; [7; 8]])%nat ∧
    ∀ w, w ≠ 1%nat →
         counters self' !! w = counters (AverageTraces_init 4 2) !! w.
Proof.
  apply (add_traces_counts 4 2 1 [[3; 4]; [5; 6]; [7; 8]] (AverageTraces_init 4 2) 0).
  - apply AverageTraces_init_wf.
  - lia.
  - repeat constructor.
  - reflexivity.
Defined.

(** X3: [add_trace] raises for a byte value beyond the counters. *)
Theorem add_trace_out_of_range data trace self :
  (length (counters self) ≤ data)%nat →
  add_trace data trace self = None.
Proof.
  intros H. unfold add_trace. by rewrite (lookup_ge_None_2 _ _ H).
Qed.

Lemma add_trace_out_of_range_witness :
  add_trace 4 [3; 4] (AverageTraces_init 4 2) = None.
Proof.
  apply (add_trace_out_of_range 4 [3; 4] (AverageTraces_init 4 2)). simpl. lia.
Defined.

Lemma broadcast_to_None {A} n (a : list A) :
  length a ≠ n → length a ≠ 1%nat → Np.broadcast_to n a = None.
Proof.
  intros Hn H1. unfold Np.broadcast_to. rewrite decide_False by done.
  destruct a as [|x [|y a]]; simpl in *; done.
Qed.

Lemma binop_Some_shape {A} (f : A → A → A) a b c :
  Np.binop f a b = Some c →
  length c = (if decide (length a = 1%nat) then length b else length a) ∧
  (length a ≠ 1%nat → length b = length a ∨ length b = 1%nat).
Proof.
  unfold Np.binop. intros H.
  apply bind_Some in H as (a' & Ha & H).
  apply bind_Some in H as (b' & Hb & [= <-]).
  apply broadcast_to_length in Ha. pose proof Hb as Hb'.
  apply broadcast_to_length in Hb. split.
  - rewrite length_zip_with. lia.
  - intros H1. rewrite decide_False in Hb' by done.
    destruct (decide (length b = length a)) as [|Hne]; [by left|right].
    destruct (decide (length b = 1%nat)) as [|Hne1]; [done|].
    by rewrite broadcast_to_None in Hb'.
Qed.

(** X4: [add_trace] raises for a trace whose length is neither the
    accumulator's trace length nor 1 (a single sample is broadcast). *)
Theorem add_trace_wrong_length n l data trace self :
  wf_AverageTraces n l self →
  length trace ≠ l → length trace ≠ 1%nat →
  add_trace data trace self = None.
Proof.
  intros (Hc & Ha & Hrows) Hl H1. unfold add_trace.
  destruct (counters self !! data) as [c|]; [|done]. simpl.
  destruct (avtraces self !! data) as [row|] eqn:Hrow; [|done]. simpl.
  assert (length row = l) as Hrl by eapply (Forall_lookup_1 _ _ _ _ Hrows Hrow).
  case_decide.
  - simpl. rewrite broadcast_to_None by congruence. done.
  - destruct (Np.sub trace row) as [d|] eqn:Hd; [|done]. simpl.
    apply binop_Some_shape in Hd as [Hdl Hshape].
    rewrite decide_False in Hdl by done.
    destruct (Hshape H1) as [?|Hr1]; [congruence|].
    destruct (Np.add row _) as [new_row|] eqn:Hn; [|done]. simpl.
    apply binop_Some_shape in Hn as [Hnl _].
    rewrite decide_True in Hnl by done.
    unfold Np.div_scalar in Hnl. rewrite length_map in Hnl.
    rewrite broadcast_to_None by congruence. done.
Qed.

Lemma add_trace_wrong_length_witness :
  add_trace 1 [3; 4; 5] (AverageTraces_init 4 2) = None.
Proof.
  apply (add_trace_wrong_length 4 2 1 [3; 4; 5] (AverageTraces_init 4 2)).
  - apply AverageTraces_init_wf.
  - simpl. lia.
  - simpl. lia.
Defined.

Lemma flatnonzero_from_zeros i n :
  Np.flatnonzero_from i (replicate n 0%nat) = [].
Proof. revert i. induction n as [|n IH]; intros i; simpl; [done|]. apply IH. Qed.

(** X5: on a new accumulator, in which no byte value was observed,
    [get_data] returns no byte value and no trace. *)
Theorem get_data_new n l : get_data (AverageTraces_init n l) = Some ([], []).
Proof.
  unfold get_data, Np.flatnonzero. simpl. by rewrite flatnonzero_from_zeros.
Qed.

(** X6: the first trace added for a byte value is what [get_data] returns
    for it: the byte value is among the returned ones, and the row at its
    position is that trace. *)
Theorem add_trace_then_get_data n l b t self :
  wf_AverageTraces n l self → (b < n)%nat → length t = l →
  counters self !! b = Some 0%nat →
  ∃ self' idx rows k,
    add_trace b t self = Some self' ∧
    get_data self' = Some (idx, rows) ∧
    idx !! k = Some b ∧ rows !! k = Some t.
Proof.
  intros Hwf Hb Ht Hc.
  pose proof Hwf as (Hlc & Hla & _).
  destruct (lookup_lt_is_Some_2 (avtraces self) b) as [row Hrow]; [lia|].
  pose proof (add_trace_unfold n l b t self 0 row Hwf Ht Hc Hrow) as Hadd.
  rewrite decide_True in Hadd by done.
  set (self' := {| avtraces := _ |}) in Hadd.
  destruct (get_data_spec n l self') as (rows & Hget & _ & Hrows).
  { by eapply add_trace_wf. }
  assert (b ∈ Np.flatnonzero (counters self')) as Hin.
  { apply flatnonzero_spec. exists 1%nat. split; [|done].
    simpl. apply list_lookup_insert_eq. lia. }
  apply list_elem_of_lookup in Hin as [k Hk].
  exists self', (Np.flatnonzero (counters self')), rows, k.
  split_and!; [done..|].
  rewrite (Hrows k b Hk). simpl. apply list_lookup_insert_eq. lia.
Qed.

Lemma add_trace_then_get_data_witness :
  ∃ self' idx rows k,
    add_trace 1 [3; 4] (AverageTraces_init 4 2) = Some self' ∧
    get_data self' = Some (idx, rows) ∧
    idx !! k = Some 1%nat ∧ rows !! k = Some [3; 4].
Proof.
  apply (add_trace_then_get_data 4 2 1 [3; 4] (AverageTraces_init 4 2)).
  - apply AverageTraces_init_wf.
  - lia.
  - reflexivity.
  - reflexivity.
Defined.



(** * Further properties of the transform pair *)

Lemma hadamard_Some n H :
  hadamard n = Some H ↔ ∃ k, n = (2 ^ k)%nat ∧ H = sylvester k.
Proof.
  split.
  - unfold hadamard. case_decide as Hn; [|done]. intros [= <-].
    exists (Nat.log2 n). done.
  - intros (k & -> & ->). apply hadamard_pow2.
Qed.

(** X8: [WHT] and [iWHT] return exactly for the arrays whose length is a
    power of two (so both raise for the empty array), and the result has the
    length of the argument. *)
Theorem WHT_domain (x : list Q) :
  (is_Some (WHT x) ↔ ∃ k, length x = (2 ^ k)%nat) ∧
  (is_Some (iWHT x) ↔ ∃ k, length x = (2 ^ k)%nat) ∧
  WHT [] = None ∧ iWHT [] = None ∧
  (∀ y, WHT x = Some y → length y = length x) ∧
  (∀ y, iWHT x = Some y → length y = length x).
Proof.
  split_and!.
  - split.
    + intros [y Hy]. unfold WHT in Hy.
      apply bind_Some in Hy as (H & (k & Hk & _)%hadamard_Some & _). eauto.
    + intros [k Hk]. rewrite (WHT_pow2 k x Hk). by eexists.
  - split.
    + intros [y Hy]. unfold iWHT in Hy.
      apply bind_Some in Hy as (H & (k & Hk & _)%hadamard_Some & _). eauto.
    + intros [k Hk]. rewrite (iWHT_pow2 k x Hk). by eexists.
  - reflexivity.
  - reflexivity.
  - apply WHT_length.
  - apply iWHT_length.
Qed.

Lemma WHT_domain_witness :
  (is_Some (WHT [1; 2; 3]) ↔ ∃ k, length [1; 2; 3] = (2 ^ k)%nat) ∧
  (is_Some (iWHT [1; 2; 3]) ↔ ∃ k, length [1; 2; 3] = (2 ^ k)%nat) ∧
  WHT [] = None ∧ iWHT [] = None ∧
  (∀ y, WHT [1; 2; 3] = Some y → length y = length [1; 2; 3]) ∧
  (∀ y, iWHT [1; 2; 3] = Some y → length y = length [1; 2; 3]).
Proof. exact (WHT_domain [1; 2; 3]). Defined.



(** * Further properties of the bit model and the S-box lookup *)

Lemma decode_bits_from x s w :
  decode_bits (map (λ i, Z.land (Z.shiftr x (Z.of_nat i)) 1) (seq s w))
  = (Z.shiftr x (Z.of_nat s) mod 2 ^ Z.of_nat w)%Z.
Proof.
  revert s. induction w as [|w IH]; intros s.
  - simpl. by rewrite Z.mod_1_r.
  - cbn [seq map decode_bits foldr].
    fold (decode_bits (map (λ i, Z.land (Z.shiftr x (Z.of_nat i)) 1) (seq (S s) w))).
    rewrite IH.
    change 1%Z with (Z.ones 1) at 1. rewrite Z.land_ones by lia.
    rewrite (Nat2Z.inj_succ w), Z.pow_succ_r by lia.
    rewrite (Z.rem_mul_r (Z.shiftr x (Z.of_nat s)) 2 (2 ^ Z.of_nat w)) by lia.
    replace (Z.shiftr x (Z.of_nat (S s)))
      with (Z.shiftr x (Z.of_nat s) / 2)%Z; [by rewrite Z.pow_1_r|].
    rewrite Nat2Z.inj_succ, <- Z.add_1_r.
    rewrite <- (Z.shiftr_shiftr x (Z.of_nat s) 1) by lia.
    by rewrite (Z.shiftr_div_pow2 _ 1) by lia.
Qed.

Lemma decode_bits_of x w :
  decode_bits (map (λ i, Z.land (Z.shiftr x (Z.of_nat i)) 1) (seq 0 w))
  = (x mod 2 ^ Z.of_nat w)%Z.
Proof. rewrite decode_bits_from. by rewrite Z.shiftr_0_r. Qed.

(** X10: the entries of the bit model before the trailing 1 are the binary
    digits of [x]: they decode to [x] modulo [2 ^ bit_width], hence to [x]
    itself for [0 <= x < 2 ^ bit_width], and two such values with the same
    model are equal. *)
Theorem model_single_bits_decode (x y : Z) (w : nat) :
  (0 ≤ x < 2 ^ Z.of_nat w)%Z → (0 ≤ y < 2 ^ Z.of_nat w)%Z →
  decode_bits (take w (model_single_bits x w)) = x ∧
  (model_single_bits x w = model_single_bits y w → x = y).
Proof.
  intros Hx Hy.
  assert (∀ z, (0 ≤ z < 2 ^ Z.of_nat w)%Z →
               decode_bits (take w (model_single_bits z w)) = z) as Hdec.
  { intros z Hz. unfold model_single_bits.
    rewrite take_app_length' by (by rewrite length_map, length_seq).
    rewrite decode_bits_of. by apply Z.mod_small. }
  split; [by apply Hdec|].
  intros Heq. rewrite <- (Hdec x Hx), <- (Hdec y Hy). by rewrite Heq.
Qed.

Lemma model_single_bits_decode_witness :
  decode_bits (take 8 (model_single_bits 0x53 8)) = 0x53%Z ∧
  (model_single_bits 0x53 8 = model_single_bits 0x53 8 → 0x53%Z = 0x53%Z).
Proof. apply (model_single_bits_decode 0x53 0x53 8); simpl; lia. Defined.

Lemma lxor_lt_pow2 a b k :
  (a < 2 ^ k)%nat → (b < 2 ^ k)%nat → (Nat.lxor a b < 2 ^ k)%nat.
Proof.
  intros Ha Hb.
  destruct (decide (Nat.lxor a b = 0%nat)) as [->|Hne].
  { pose proof (Nat.pow_nonzero 2 k). lia. }
  apply Nat.log2_lt_pow2; [lia|].
  pose proof (Nat.log2_lxor a b) as Hl.
  destruct (decide (a = 0%nat)) as [->|Ha0];
    destruct (decide (b = 0%nat)) as [->|Hb0].
  - done.
  - rewrite Nat.lxor_0_l. apply Nat.log2_lt_pow2; lia.
  - rewrite Nat.lxor_0_r. apply Nat.log2_lt_pow2; lia.
  - apply Nat.log2_lt_pow2 in Ha; [|lia]. apply Nat.log2_lt_pow2 in Hb; [|lia]. lia.
Qed.

(** X11: for byte values as data, a byte value as key and a table of 256
    entries, [s_box_out] returns one table entry per datum, the one at
    [datum xor key]; with key 0 it is the entry at the datum itself. *)
Theorem s_box_out_bytes (data : list nat) (key_byte : nat) (sbox : list Z) :
  Forall (λ d, (d < 256)%nat) data → (key_byte < 256)%nat →
  length sbox = 256%nat →
  ∃ out,
    s_box_out data key_byte sbox = Some out ∧
    length out = length data ∧
    (∀ i d, data !! i = Some d → out !! i = sbox !! Nat.lxor d key_byte) ∧
    (key_byte = 0%nat → ∀ i d, data !! i = Some d → out !! i = sbox !! d).
Proof.
  intros Hdata Hkey Hsbox.
  destruct (mapM_Forall_Some (λ d, sbox !! Nat.lxor d key_byte) data) as [out Hout].
  { eapply Forall_impl; [exact Hdata|]. intros d Hd. simpl.
    apply lookup_lt_is_Some. rewrite Hsbox. by apply (lxor_lt_pow2 d key_byte 8). }
  exists out. unfold s_box_out.
  assert (∀ i d, data !! i = Some d → out !! i = sbox !! Nat.lxor d key_byte) as Hlk.
  { intros i d Hi. apply mapM_Forall2 in Hout.
    destruct (Forall2_lookup_l _ _ _ _ _ Hout Hi) as (o & Ho & Hs). by rewrite Ho, Hs. }
  split_and!; [done|symmetry; by eapply length_mapM|done|].
  intros -> i d Hi. rewrite (Hlk i d Hi). by rewrite Nat.lxor_0_r.
Qed.

Lemma s_box_out_bytes_witness :
  ∃ out,
    s_box_out [0; 83; 255]%nat 43 aes_sbox = Some out ∧
    length out = length [0; 83; 255]%nat ∧
    (∀ i d, [0; 83; 255]%nat !! i = Some d → out !! i = aes_sbox !! Nat.lxor d 43) ∧
    (43%nat = 0%nat → ∀ i d, [0; 83; 255]%nat !! i = Some d → out !! i = aes_sbox !! d).
Proof.
  apply (s_box_out_bytes [0; 83; 255]%nat 43 aes_sbox).
  - repeat constructor; lia.
  - lia.
  - reflexivity.
Defined.

(** * Further properties of the accumulation in a work unit *)



(** X13: [update] raises when there are fewer plaintext bytes than traces. *)
Theorem update_short_plaintext traces plaintext average_traces n_tr
    (v u : ref) (σ : store) :
  (length plaintext < length traces)%nat →
  update traces plaintext average_traces n_tr v u σ = None.
Proof.
  intros Hlen. unfold update. apply m_bind_fail.
  revert plaintext average_traces n_tr σ Hlen.
  induction traces as [|t traces IH]; intros plaintext a n_tr σ Hlen.
  - simpl in Hlen. lia.
  - destruct plaintext as [|g plaintext]; [done|].
    cbn [update_loop].
    destruct (update_step t g a n_tr v u σ) as [[[a1 n1] σ1]|] eqn:Hstep.
    + erewrite m_bind_run by exact Hstep. cbn beta iota.
      apply IH. simpl in Hlen. lia.
    + by apply m_bind_fail.
Qed.

Lemma update_short_plaintext_witness :
  update [[1]; [3]] [0%nat] (AverageTraces_init 4 1) 0 0 1 [[0]; [0]] = None.
Proof.
  apply (update_short_plaintext [[1]; [3]] [0%nat] (AverageTraces_init 4 1) 0 0 1
           [[0]; [0]]).
  simpl. lia.
Defined.



Lemma Qeq_bool_inject_Z_nonzero n : n ≠ 0%Z → Qeq_bool (inject_Z n) 0 = false.
Proof.
  intros Hn. destruct (Qeq_bool (inject_Z n) 0) eqn:He; [|done].
  apply Qeq_bool_iff in He. unfold Qeq in He. simpl in He. lia.
Qed.

(** X15: for [v] and [u] of the same length, [sst] is entry by entry
    [v - u² / n_tr] and finite when the count is not zero; for a zero count
    the entry is [nan] where [u] is zero and [-inf] elsewhere. *)
Theorem calc_sst_values (v u : list Q) (n_tr : Z) :
  length v = length u →
  (n_tr ≠ 0%Z →
   calc_sst v u n_tr
   = Some (zip_with (λ vi ui, Fin (vi - ui ^ 2 / inject_Z n_tr)) v u)) ∧
  (n_tr = 0%Z →
   calc_sst v u n_tr
   = Some (map (λ ui, if Qeq_bool (ui ^ 2) 0 then NaN else NInf) u)).
Proof.
  intros Hlen. unfold calc_sst.
  rewrite binop_same by (by rewrite !length_map).
  rewrite zip_with_fmap_l, zip_with_fmap_r. split.
  - intros Hn. f_equal. apply zip_with_ext; [|done..]. intros vi ui.
    cbn [X.div X.sub]. by rewrite (Qeq_bool_inject_Z_nonzero n_tr Hn).
  - intros ->. f_equal.
    revert v Hlen. induction u as [|ui u IH]; intros [|vi v] Hlen;
      try discriminate; [done|].
    cbn [zip_with map]. f_equal; [|apply IH; simpl in Hlen; lia].
    cbn [X.div X.sub]. change (Qeq_bool (inject_Z 0) 0) with true. cbn iota.
    destruct (Qeq_bool (ui ^ 2) 0); [done|].
    by rewrite (proj2 (Qle_bool_iff 0 (ui ^ 2)) (Qsqr_nonneg ui)).
Qed.

Lemma calc_sst_values_witness :
  (4%Z ≠ 0%Z →
   calc_sst [30; 10] [10; 2] 4
   = Some (zip_with (λ vi ui, Fin (vi - ui ^ 2 / inject_Z 4)) [30; 10] [10; 2])) ∧
  (4%Z = 0%Z →
   calc_sst [30; 10] [10; 2] 4
   = Some (map (λ ui, if Qeq_bool (ui ^ 2) 0 then NaN else NInf) [10; 2])).
Proof. apply (calc_sst_values [30; 10] [10; 2] 4). reflexivity. Defined.

(** * Further properties of the scorer and of a run *)

(** X16: the R² surface the scorer returns has one row per key-byte
    hypothesis, 256 in all, and one column per sample point. *)
Theorem lra_surface_shape cholesky solve_triangular_lower data traces sbox sst R2 :
  lra cholesky solve_triangular_lower data traces sbox sst = Some R2 →
  length R2 = 256%nat ∧ Forall (λ row, length row = Mat.ncols traces) R2.
Proof. apply lra_shape. Qed.

Lemma lra_surface_shape_witness :
  ∃ R2,
    lra Fixed.cholesky Fixed.solve_triangular_lower (seq 0 256) full_traces
        aes_sbox [Fin (0 # 256); Fin (-1414922240 # 256)] = Some R2 ∧
    length R2 = 256%nat ∧ Forall (λ row, length row = Mat.ncols full_traces) R2.
Proof.
  destruct full_lra as [R2 HR2]. exists R2. split; [exact HR2|].
  apply (lra_surface_shape Fixed.cholesky Fixed.solve_triangular_lower
           (seq 0 256) full_traces aes_sbox
           [Fin (0 # 256); Fin (-1414922240 # 256)] R2 HR2).
Defined.

(** X17: the scorer raises when fewer than 256 byte values were observed
    and there is a sample point to score: with a basis of at least two rows
    over the observed values, either their number is no power of two, and
    the transform raises, or the loop over the 256 hypotheses indexes past
    the observed values. *)
Theorem lra_needs_all_byte_values cholesky solve_triangular_lower
    data traces sbox sst U0 :
  lra_basis cholesky solve_triangular_lower data sbox = Some U0 →
  (2 ≤ length U0)%nat →
  Forall (λ r, length r = length data) U0 →
  length traces = length data →
  (0 < Mat.ncols traces)%nat →
  (length data < 256)%nat →
  lra cholesky solve_triangular_lower data traces sbox sst = None.
Proof.
  intros HU0 Hrows2 HU0rows Htr Hcols Hm.
  destruct (lra _ _ data traces sbox sst) as [R2|] eqn:H; [exfalso|done].
  unfold lra in H.
  apply bind_Some in H as (U0' & HU0' & H).
  rewrite HU0 in HU0'. injection HU0' as <-.
  apply bind_Some in H as (U0_wht & Hwht & H).
  apply bind_Some in H as (cols & Hcs & _).
  apply mapM_Forall2 in Hcs.
  destruct (Forall2_lookup_l _ _ _ 0 0%nat Hcs) as (col & _ & Hcol).
  { by apply lookup_seq_lt. }
  unfold lra_column in Hcol.
  apply bind_Some in Hcol as (tcol & Htcol & Hcol).
  apply bind_Some in Hcol as (WL & HWL & Hcol).
  apply bind_Some in Hcol as (U & HU & Hentries).
  apply WHT_length in HWL. apply column_length in Htcol.
  pose proof (length_mapM _ _ _ Hwht) as Hlw.
  destruct (lookup_lt_is_Some_2 U0_wht 0) as [row0 Hrow0]; [lia|].
  assert (length row0 = length data) as Hr0.
  { apply mapM_Forall2 in Hwht.
    destruct (Forall2_lookup_r _ _ _ _ _ Hwht Hrow0) as (r & Hr & Hw).
    rewrite (WHT_length _ _ Hw).
    by apply (Forall_lookup_1 _ _ _ _ HU0rows Hr). }
  unfold lra_project in HU. apply mapM_Forall2 in HU.
  destruct (Forall2_lookup_l _ _ _ 0 row0 HU) as (r0 & Hr0U & Hproj).
  { rewrite lookup_take_lt by lia. done. }
  simpl in Hproj. apply bind_Some in Hproj as (prod & Hprod & HiWHT).
  apply iWHT_length in HiWHT.
  apply binop_Some_shape in Hprod as [Hpl _].
  assert (length r0 = length data) as Hr0l.
  { rewrite HiWHT, Hpl. case_decide; congruence. }
  apply mapM_Forall2 in Hentries.
  destruct (Forall2_lookup_l _ _ _ (length data) (length data) Hentries)
    as (e & _ & He).
  { by apply lookup_seq_lt. }
  simpl in He. apply bind_Some in He as (SSR & HSSR & _).
  unfold lra_SSR in HSSR. apply bind_Some in HSSR as (c & Hc & _).
  unfold Mat.column in Hc. apply mapM_Forall2 in Hc.
  destruct (Forall2_lookup_l _ _ _ _ _ Hc Hr0U) as (x & _ & Hx).
  apply lookup_lt_Some in Hx. lia.
Qed.

Lemma lra_needs_all_byte_values_witness :
  lra Fixed.cholesky Fixed.solve_triangular_lower
      (seq 0 16) (replicate 16 [1]) aes_sbox [Fin 1] = None.
Proof.
  assert (∃ U0, lra_basis Fixed.cholesky Fixed.solve_triangular_lower
                  (seq 0 16) aes_sbox = Some U0 ∧
                bool_decide ((2 ≤ length U0)%nat ∧
                             Forall (λ r, length r = 16%nat) U0) = true)
    as (U0 & HU0 & Hshape).
  { eexists. split; vm_compute; reflexivity. }
  apply bool_decide_eq_true_1 in Hshape as [H2 Hrows].
  apply (lra_needs_all_byte_values Fixed.cholesky Fixed.solve_triangular_lower
           (seq 0 16) (replicate 16 [1]) aes_sbox [Fin 1] U0 HU0 H2 Hrows).
  - reflexivity.
  - simpl. lia.
  - simpl. lia.
Defined.

Lemma argmax_lt a w : X.argmax a = Some w → (w < length a)%nat.
Proof.
  intros Hw. destruct (argmax_spec a) as (w' & pw & Hw' & Hpw & _).
  { by intros ->. }
  rewrite Hw in Hw'. injection Hw' as <-. by eapply lookup_lt_Some.
Qed.

Lemma calculate_byte cholesky solve_triangular_lower self byte_idx
    average_traces n_tr (v u : ref) (σ σ' : store) w :
  calculate cholesky solve_triangular_lower self byte_idx average_traces
            n_tr v u σ = Some (w, σ') →
  (w < 256)%nat.
Proof.
  unfold calculate, mbind at 1 2, M_bind, m_bind, read.
  destruct (σ !! v) as [va|]; [|done]. cbn [mbind option_bind].
  destruct (σ !! u) as [ua|]; [|done]. cbn [mbind option_bind].
  unfold m_lift. intros H.
  apply bind_Some in H as (w' & H & [= <- <-]).
  apply bind_Some in H as ([[plain trace] sst] & _ & H).
  apply bind_Some in H as (r2 & Hlra & H).
  apply bind_Some in H as (peaks & Hpeaks & Hw).
  apply argmax_lt in Hw. unfold r2_peaks in Hpeaks.
  apply length_mapM in Hpeaks. apply lra_shape in Hlra as [Hlen _]. lia.
Qed.

Lemma run_workload_byte cholesky solve_triangular_lower self container a
    tile_x tile_y model_pos (σ0 : store) r σ :
  run_workload cholesky solve_triangular_lower self container a
               tile_x tile_y model_pos σ0 = Some (r, σ) →
  (r.2 < 256)%nat.
Proof.
  unfold run_workload, mbind, M_bind, m_bind.
  destruct (accumulate _ _ _ _ _ _ _) as [[[[[a' n] v] u] σ1]|]; [|done].
  destruct (calculate _ _ _ _ _ _ _ _ _) as [[kb σ2]|] eqn:Hcalc; [|done].
  intros [= <- <-]. simpl. by eapply calculate_byte.
Qed.

Lemma collect_Forall (P : nat → Prop) tiles results :
  ∀ acc keys,
    Forall (Forall P) acc →
    Forall (λ r : Z * Z * nat * nat, P r.2) results →
    collect tiles results acc = Some keys →
    Forall (Forall P) keys.
Proof.
  induction results as [|[[[x y] p] kb] results IH]; intros acc keys Hacc Hres Hc.
  - simpl in Hc. by injection Hc as <-.
  - apply Forall_cons in Hres as [Hkb Hres]. cbn [collect] in Hc.
    apply bind_Some in Hc as (i & _ & Hc).
    apply bind_Some in Hc as (key & Hkey & Hc).
    eapply IH; [|exact Hres|exact Hc].
    apply Forall_insert; [done|]. apply Forall_app. split.
    + by eapply (Forall_lookup_1 _ _ _ _ Hacc Hkey).
    + by repeat constructor.
Qed.

(** X18: every byte of every key a run recovers is below 256: the winning
    byte of a unit is an index into the 256 rows of its R² surface. *)
Theorem run_keys_are_bytes cholesky solve_triangular_lower container range keys :
  run cholesky solve_triangular_lower container range = Some keys →
  Forall (Forall (λ key_byte, (key_byte < 256)%nat)) keys.
Proof.
  intros Hrun. unfold run in Hrun.
  apply bind_Some in Hrun as (avs & _ & Hrun).
  apply bind_Some in Hrun as (work & _ & Hrun).
  apply bind_Some in Hrun as (results & Hres & Hcollect).
  eapply (collect_Forall _ _ _ _ _ _ _ Hcollect).
  Unshelve.
  - apply Forall_fmap, Forall_forall. intros i _. constructor.
  - unfold starmap in Hres.
    eapply mapM_Forall_out; [exact Hres|].
    intros [[[a x] y] p] r _ Hr. simpl in Hr.
    apply fmap_Some in Hr as ([r' σ] & Hr & ->). simpl.
    by eapply run_workload_byte.
Qed.

Lemma run_keys_are_bytes_witness :
  ∃ keys,
    run Fixed.cholesky Fixed.solve_triangular_lower full_container None = Some keys ∧
    Forall (Forall (λ key_byte, (key_byte < 256)%nat)) keys.
Proof.
  destruct full_run as [kb Hrun]. exists [[kb]]. split; [exact Hrun|].
  apply (run_keys_are_bytes Fixed.cholesky Fixed.solve_triangular_lower
           full_container None [[kb]] Hrun).
Defined.

Lemma concat_insert_snoc {A} (acc : list (list A)) i key b :
  acc !! i = Some key →
  length (concat (<[i := key ++ [b]]> acc)) = S (length (concat acc)).
Proof.
  revert i. induction acc as [|k acc IH]; intros [|i] Hi; simplify_eq/=.
  - rewrite !length_app. simpl. lia.
  - rewrite !length_app, (IH i Hi). lia.
Qed.

Lemma collect_lengths tiles results :
  ∀ acc keys,
    collect tiles results acc = Some keys →
    length keys = length acc ∧
    length (concat keys) = (length (concat acc) + length results)%nat.
Proof.
  induction results as [|[[[x y] p] kb] results IH]; intros acc keys Hc.
  - simpl in Hc. injection Hc as <-. simpl. lia.
  - cbn [collect] in Hc.
    apply bind_Some in Hc as (i & _ & Hc).
    apply bind_Some in Hc as (key & Hkey & Hc).
    destruct (IH _ _ Hc) as [Hl Hcl].
    rewrite length_insert in Hl. rewrite (concat_insert_snoc _ _ _ _ Hkey) in Hcl.
    simpl. lia.
Qed.

Lemma length_bind_single {A B} (f : A → B) (l : list A) :
  length (x ← l; [f x]) = length l.
Proof. induction l as [|x l IH]; csimpl; [done|]. by rewrite IH. Qed.

Lemma length_bind_pairs {A B} (ts : list A) (ps : list B) :
  length (t ← ts; p ← ps; [(t, p)]) = (length ts * length ps)%nat.
Proof.
  induction ts as [|t ts IH]; csimpl; [done|].
  by rewrite length_app, IH, (length_bind_single (pair t)).
Qed.

Lemma concat_replicate_nil {A} n : concat (replicate n ([] : list A)) = [].
Proof. induction n as [|n IH]; [done|]. exact IH. Qed.

(** X19: whether or not the tiles are distinct, a run that returns gives as
    many keys as there are tiles, and the keys hold together one byte per
    pair of a tile and a listed key-byte position. *)
Theorem run_key_counts cholesky solve_triangular_lower container range keys :
  run cholesky solve_triangular_lower container range = Some keys →
  length keys = length (tiles container) ∧
  length (concat keys)
  = (length (tiles container) * length (model_positions container))%nat.
Proof.
  intros Hrun. unfold run in Hrun.
  apply bind_Some in Hrun as (avs & _ & Hrun).
  apply bind_Some in Hrun as (work & Hwork & Hrun).
  apply bind_Some in Hrun as (results & Hres & Hcollect).
  apply collect_lengths in Hcollect as [Hl Hcl].
  rewrite map_const_replicate, length_seq in Hl, Hcl.
  rewrite length_replicate in Hl. split; [done|].
  rewrite Hcl.
  rewrite concat_replicate_nil.
  unfold starmap in Hres. apply length_mapM in Hres.
  unfold workload in Hwork. apply length_mapM in Hwork.
  rewrite length_bind_pairs in Hwork. simpl. lia.
Qed.

Lemma run_key_counts_witness :
  ∃ keys,
    run Fixed.cholesky Fixed.solve_triangular_lower full_container None = Some keys ∧
    length keys = length (tiles full_container) ∧
    length (concat keys)
    = (length (tiles full_container) * length (model_positions full_container))%nat.
Proof.
  destruct full_run as [kb Hrun]. exists [[kb]]. split; [exact Hrun|].
  apply (run_key_counts Fixed.cholesky Fixed.solve_triangular_lower
           full_container None [[kb]] Hrun).
Defined.

Lemma mapM_None {A B} (f : A → option B) l x :
  x ∈ l → f x = None → mapM f l = None.
Proof.
  intros Hx Hf. destruct (mapM f l) as [k|] eqn:Hk; [exfalso|done].
  apply list_elem_of_lookup in Hx as [i Hi]. apply mapM_Forall2 in Hk.
  destruct (Forall2_lookup_l _ _ _ _ _ Hk Hi) as (y & _ & Hy). congruence.
Qed.

(** X20: a run raises when there is a tile and some listed key-byte
    position is not below the number of listed positions: the accumulators
    are created one per listed position and then indexed by position. *)
Theorem run_position_out_of_range cholesky solve_triangular_lower
    container range tile model_pos :
  tile ∈ tiles container →
  model_pos ∈ model_positions container →
  (length (model_positions container) ≤ model_pos)%nat →
  run cholesky solve_triangular_lower container range = None.
Proof.
  intros Htile Hpos Hge. unfold run.
  destruct (mapM _ (model_positions container)) as [avs|] eqn:Havs; [|done].
  cbn [mbind option_bind]. apply length_mapM in Havs.
  unfold workload.
  rewrite (mapM_None _ _ (tile, model_pos)); [done| |].
  - apply list_elem_of_bind. exists tile. split; [|done].
    apply list_elem_of_bind. exists model_pos. split; [|done].
    by apply list_elem_of_singleton.
  - simpl. rewrite lookup_ge_None_2 by lia. done.
Qed.

Lemma run_position_out_of_range_witness :
  run Fixed.cholesky Fixed.solve_triangular_lower
      {| tiles := [(0, 0)%Z]; model_positions := [3%nat]; sample_length := 2;
         get_batches := λ _ _ _, [] |} None = None.
Proof.
  apply (run_position_out_of_range Fixed.cholesky Fixed.solve_triangular_lower
           _ None (0, 0)%Z 3%nat).
  - simpl. apply list_elem_of_singleton. reflexivity.
  - simpl. apply list_elem_of_singleton. reflexivity.
  - simpl. lia.
Defined.

(** X21: a run over a sample range whose end lies before its start raises
    as soon as a key-byte position is listed: the accumulator of the first
    position cannot be created with a negative trace length. *)
Theorem run_negative_range cholesky solve_triangular_lower container first last :
  (last < first)%nat →
  model_positions container ≠ [] →
  run cholesky solve_triangular_lower container (Some (first, last)) = None.
Proof.
  intros Hlt Hne. unfold run. cbn [configure_range samples_range].
  destruct (model_positions container) as [|p ps]; [done|].
  assert (AverageTraces_new 256 (Z.of_nat last - Z.of_nat first) = None) as Hnew.
  { unfold AverageTraces_new. by rewrite decide_False by lia. }
  cbn [mapM]. rewrite Hnew. done.
Qed.

Lemma run_negative_range_witness :
  run Fixed.cholesky Fixed.solve_triangular_lower full_container (Some (5, 3)%nat)
  = None.
Proof.
  apply (run_negative_range Fixed.cholesky Fixed.solve_triangular_lower
           full_container 5 3).
  - lia.
  - discriminate.
Defined.





(** * A sample point that is zero in every average trace *)

Lemma sum_all_zero (a : list Q) : Forall (λ x, x == 0) a → Np.sum a == 0.
Proof.
  unfold Np.sum. induction 1 as [|x a Hx _ IH]; simpl; [reflexivity|].
  rewrite Hx, IH. reflexivity.
Qed.

Lemma matvec_all_zero h (x : list Q) :
  Forall (λ y, y == 0) x → Forall (λ y, y == 0) (Mat.matvec h x).
Proof.
  intros Hx. unfold Mat.matvec. apply Forall_fmap, Forall_forall.
  intros row _. simpl. apply sum_all_zero.
  revert row. induction Hx as [|y x Hy _ IH]; intros [|c row]; simpl;
    try constructor.
  - rewrite Hy. ring.
  - apply IH.
Qed.

Lemma broadcast_to_Forall {A} (P : A → Prop) n a a' :
  Np.broadcast_to n a = Some a' → Forall P a → Forall P a'.
Proof.
  unfold Np.broadcast_to. case_decide; [by intros [= <-]|].
  destruct a as [|x [|y a]]; intros [= <-] Ha.
  apply Forall_replicate. by inversion Ha.
Qed.

Lemma mul_all_zero a b c :
  Np.mul a b = Some c → Forall (λ y, y == 0) b → Forall (λ y, y == 0) c.
Proof.
  unfold Np.mul, Np.binop. intros H Hb.
  apply bind_Some in H as (a' & _ & H).
  apply bind_Some in H as (b' & Hb' & [= <-]).
  pose proof (broadcast_to_Forall _ _ _ _ Hb' Hb) as Hz. clear Hb'.
  revert a'. induction Hz as [|y b' Hy _ IH]; intros [|x a']; simpl;
    try constructor.
  - rewrite Hy. ring.
  - apply IH.
Qed.

Lemma WHT_all_zero x y :
  WHT x = Some y → Forall (λ v, v == 0) x → Forall (λ v, v == 0) y.
Proof.
  unfold WHT. intros H Hx. apply bind_Some in H as (h & _ & [= <-]).
  unfold Np.div_scalar. apply Forall_fmap.
  eapply Forall_impl; [apply matvec_all_zero, Hx|].
  intros v Hv. simpl. rewrite Hv. unfold Qdiv. ring.
Qed.

Lemma iWHT_all_zero x y :
  iWHT x = Some y → Forall (λ v, v == 0) x → Forall (λ v, v == 0) y.
Proof.
  unfold iWHT. intros H Hx. apply bind_Some in H as (h & _ & [= <-]).
  by apply matvec_all_zero.
Qed.

Lemma argmax_from_nan a i best_i : X.argmax_from i best_i NaN a = best_i.
Proof.
  revert i. induction a as [|x a IH]; intros i; simpl; [done|].
  destruct x; simpl; apply IH.
Qed.

Lemma max_with_nan row p : X.max row = Some p → NaN ∈ row → p = NaN.
Proof.
  intros [_ Hub]%max_spec Hin. specialize (Hub NaN Hin). by destruct p.
Qed.

Section zero_point_facts.
Variable cholesky : list (list Z) → option (list (list Q)).
Variable solve_triangular_lower :
  list (list Q) → list (list Z) → option (list (list Q)).

(** Where the average traces are all zero and [sst] is zero, every
    hypothesis gets [0 / 0]. *)
Lemma lra_column_nan traces U0_wht sst i tcol z col k r :
  lra_column traces U0_wht sst i = Some col →
  Mat.column i traces = Some tcol → Forall (λ x, x == 0) tcol →
  sst !! i = Some (Fin z) → z == 0 →
  col !! k = Some r → r = NaN.
Proof.
  unfold lra_column. intros H Htcol Hzero Hs Hz Hr.
  rewrite Htcol in H. cbn [mbind option_bind] in H.
  apply bind_Some in H as (WL & HWL & H).
  apply bind_Some in H as (U & HU & H).
  pose proof (WHT_all_zero _ _ HWL Hzero) as HWLz.
  assert (Forall (Forall (λ x, x == 0)) U) as HUz.
  { unfold lra_project in HU. eapply mapM_Forall_out; [exact HU|].
    intros row y _ Hy. simpl in Hy. apply bind_Some in Hy as (prod & Hprod & Hy).
    eapply iWHT_all_zero; [exact Hy|]. by eapply mul_all_zero. }
  destruct (mapM_seq_lookup _ _ _ _ _ H Hr) as [_ He].
  apply bind_Some in He as (SSR & HSSR & He).
  rewrite Hs in He. cbn [mbind option_bind] in He. injection He as <-.
  unfold lra_SSR in HSSR. apply bind_Some in HSSR as (c & Hc & [= <-]).
  assert (Np.sum (map (λ x, x ^ 2) c) == 0) as Hsum.
  { apply sum_all_zero, Forall_fmap, Forall_forall. intros x Hx.
    apply list_elem_of_lookup in Hx as [j Hj].
    destruct (column_lookup _ _ _ _ _ Hc Hj) as (row & Hrow & Hx).
    pose proof (Forall_lookup_1 _ _ _ _ HUz Hrow) as Hrz.
    pose proof (Forall_lookup_1 _ _ _ _ Hrz Hx) as Hx0. simpl in *.
    rewrite Hx0. reflexivity. }
  change (Np.sum (map (λ x, x * x) c) == 0) in Hsum.
  cbv beta iota delta [X.div]. rewrite (proj2 (Qeq_bool_iff z 0) Hz). cbv iota.
  by rewrite (proj2 (Qeq_bool_iff _ 0) Hsum).
Qed.

Lemma calculate_zero_point self byte_idx average_traces n_tr (v u : ref)
    (σ : store) va ua plain trace sst r2 i tcol z :
  σ !! v = Some va → σ !! u = Some ua →
  calculate_inputs average_traces n_tr va ua = Some (plain, trace, sst) →
  lra cholesky solve_triangular_lower plain trace (sbox self) sst = Some r2 →
  Mat.column i trace = Some tcol → Forall (λ x, x == 0) tcol →
  (i < Mat.ncols trace)%nat →
  sst !! i = Some (Fin z) → z == 0 →
  calculate cholesky solve_triangular_lower self byte_idx average_traces
            n_tr v u σ = Some (0%nat, σ).
Proof.
  intros Hv Hu Hin Hlra Htcol Hzero Hi Hs Hz.
  destruct (lra_shape _ _ _ _ _ _ _ Hlra) as [Hlen Hrows].
  assert (Forall (λ row, NaN ∈ row) r2) as Hnan.
  { apply Forall_lookup. intros k row Hrow.
    pose proof (Forall_lookup_1 _ _ _ _ Hrows Hrow) as Hl. simpl in Hl.
    destruct (lookup_lt_is_Some_2 row i) as [r Hr]; [lia|].
    apply list_elem_of_lookup. exists i. rewrite Hr. f_equal.
    unfold lra in Hlra.
    apply bind_Some in Hlra as (U0 & _ & Hlra).
    apply bind_Some in Hlra as (U0_wht & _ & Hlra).
    apply bind_Some in Hlra as (cols & Hcols & Hlra).
    destruct (of_columns_lookup _ _ _ _ _ _ _ Hlra Hrow Hr) as (col & Hcol & Hk).
    destruct (mapM_seq_lookup _ _ _ _ _ Hcols Hcol) as [_ Hc].
    by eapply lra_column_nan. }
  destruct (r2_peaks_spec r2) as (peaks & Hpeaks & Hplen & _).
  { eapply Forall_impl; [exact Hnan|]. intros row Hrow ->. by inversion Hrow. }
  assert (Forall (λ p, p = NaN) peaks) as Hpn.
  { unfold r2_peaks in Hpeaks. eapply mapM_Forall_out; [exact Hpeaks|].
    intros row p Hrow Hp. eapply max_with_nan; [exact Hp|].
    by apply (proj1 (Forall_forall _ _) Hnan). }
  rewrite (calculate_run _ _ self byte_idx average_traces n_tr v u σ va ua Hv Hu).
  rewrite Hin. cbn [mbind option_bind]. rewrite Hlra. cbn [mbind option_bind].
  rewrite Hpeaks. cbn [mbind option_bind].
  destruct peaks as [|p peaks]; [simpl in Hplen; lia|].
  apply Forall_cons in Hpn as [-> _]. simpl. by rewrite argmax_from_nan.
Qed.

End zero_point_facts.

(** X23: if, at some sample point, the average trace of every observed byte
    value is zero and [sst] is zero, then the R² of every hypothesis at that
    point is [0 / 0 = nan], every peak is [nan], and [calculate] returns key
    byte 0 whatever the other sample points hold. *)
Theorem calculate_zero_sample_point cholesky solve_triangular_lower
    self byte_idx average_traces n_tr (v u : ref)
    (σ : store) va ua plain trace sst r2 i tcol z :
  σ !! v = Some va → σ !! u = Some ua →
  calculate_inputs average_traces n_tr va ua = Some (plain, trace, sst) →
  lra cholesky solve_triangular_lower plain trace (sbox self) sst = Some r2 →
  Mat.column i trace = Some tcol → Forall (λ x, x == 0) tcol →
  (i < Mat.ncols trace)%nat →
  sst !! i = Some (Fin z) → z == 0 →
  calculate cholesky solve_triangular_lower self byte_idx average_traces
            n_tr v u σ = Some (0%nat, σ).
Proof. apply calculate_zero_point. Qed.

Lemma calculate_zero_sample_point_witness :
  calculate Fixed.cholesky Fixed.solve_triangular_lower full_self 0
            full_average_traces 256 0 1 [[0; 11119360]; [0; 65280]]
  = Some (0%nat, [[0; 11119360]; [0; 65280]]).
Proof.
  destruct full_lra as [r2 Hr2].
  apply (calculate_zero_sample_point Fixed.cholesky Fixed.solve_triangular_lower
           full_self 0 full_average_traces 256 0 1
           [[0; 11119360]; [0; 65280]] [0; 11119360] [0; 65280]
           (seq 0 256) full_traces
           [Fin (0 # 256); Fin (-1414922240 # 256)] r2 0
           (replicate 256 0) (0 # 256)).
  - reflexivity.
  - reflexivity.
  - exact full_calculate_inputs.
  - exact Hr2.
  - vm_compute. reflexivity.
  - apply Forall_replicate. reflexivity.
  - vm_compute. lia.
  - reflexivity.
  - reflexivity.
Defined.


(** * The transform pair and XOR-convolution *)



















(** * What an entry of the R² surface is *)


Section entry_facts.
Variable cholesky : list (list Z) → option (list (list Q)).
Variable solve_triangular_lower :
  list (list Q) → list (list Z) → option (list (list Q)).



End entry_facts.


(** * A stream of several batches *)

Lemma nth_veq (a b : list Q) i : Np.veq a b → nth i a 0 == nth i b 0.
Proof.
  intros H. revert i. induction H as [|x y a b Hxy _ IH]; intros [|i]; simpl;
    try reflexivity; [exact Hxy|apply IH].
Qed.












(** * Tiles listed more than once *)

(** [list.index] finds the first occurrence. *)
Lemma index_of_first tile l j :
  index_of tile l = Some j →
  l !! j = Some tile ∧ ∀ i, (i < j)%nat → l !! i ≠ Some tile.
Proof.
  revert j. induction l as [|t l IH]; intros j H; [done|]. simpl in H.
  destruct (decide (t = tile)) as [->|Hne].
  - injection H as <-. split; [done|]. intros i Hi. lia.
  - destruct (index_of tile l) as [k|] eqn:Hk; [|done]. injection H as <-.
    destruct (IH k eq_refl) as [Hl Hfirst]. split; [done|].
    intros [|i] Hi; simpl; [congruence|]. apply Hfirst. lia.
Qed.

(** The key of an index no tile is found at is never appended to. *)
Lemma collect_untouched tiles j :
  (∀ tile, index_of tile tiles ≠ Some j) →
  ∀ results aes_key out,
    collect tiles results aes_key = Some out → out !! j = aes_key !! j.
Proof.
  intros Hj. induction results as [|[[[tx ty] pos] kb] results IH];
    intros aes_key out H.
  - by injection H as <-.
  - simpl in H. apply bind_Some in H as (ti & Hti & H).
    apply bind_Some in H as (key & Hkey & H).
    rewrite (IH _ _ H). apply list_lookup_insert_ne. intros ->. by eapply Hj.
Qed.

Section duplicate_tiles.
Variable cholesky : list (list Z) → option (list (list Q)).
Variable solve_triangular_lower :
  list (list Q) → list (list Z) → option (list (list Q)).

Lemma run_later_occurrence container range keys i j tile :
  run cholesky solve_triangular_lower container range = Some keys →
  (i < j)%nat →
  tiles container !! i = Some tile → tiles container !! j = Some tile →
  keys !! j = Some [].
Proof.
  intros Hrun Hij Hi Hj. unfold run in Hrun.
  apply bind_Some in Hrun as (avs & _ & Hrun).
  apply bind_Some in Hrun as (work & _ & Hrun).
  apply bind_Some in Hrun as (results & _ & Hcollect).
  assert (∀ t, index_of t (tiles container) ≠ Some j) as Hnone.
  { intros t Ht. apply index_of_first in Ht as [Htj Hfirst].
    apply (Hfirst i Hij). congruence. }
  rewrite (collect_untouched _ j Hnone _ _ _ Hcollect).
  rewrite list_lookup_fmap, lookup_seq_lt; [done|].
  by eapply lookup_lt_Some.
Qed.

(** A run over the same tile listed twice, for the key-byte position 0. *)
Lemma run_twin container range tile a key_byte σ :
  tiles container = [tile; tile] → model_positions container = [0%nat] →
  AverageTraces_new 256 (samples_range (configure_range container range)) = Some a →
  run_workload cholesky solve_triangular_lower (configure_range container range)
    container a tile.1 tile.2 0 [] = Some ((tile.1, tile.2, 0%nat, key_byte), σ) →
  run cholesky solve_triangular_lower container range
  = Some [[key_byte; key_byte]; []].
Proof.
  intros Htiles Hpos Hnew Hrun. unfold run, workload, starmap.
  rewrite Htiles, Hpos. cbn [mapM mbind option_bind list_bind app mret option_ret].
  rewrite Hnew. cbn [mapM mbind option_bind fmap option_fmap option_map
                     mret option_ret lookup list_lookup fst snd].
  rewrite Hrun. cbn. rewrite decide_True by (by destruct tile). done.
Qed.

End duplicate_tiles.

(** A unit reads the container only through its batches. *)
Lemma run_workload_batches cholesky solve_triangular_lower self c1 c2 a
    tile_x tile_y model_pos :
  get_batches c1 tile_x tile_y model_pos = get_batches c2 tile_x tile_y model_pos →
  run_workload cholesky solve_triangular_lower self c1 a tile_x tile_y model_pos
  = run_workload cholesky solve_triangular_lower self c2 a tile_x tile_y model_pos.
Proof. intros H. unfold run_workload, accumulate. by rewrite H. Qed.

Lemma twin_run :
  ∃ key_byte,
    run Fixed.cholesky Fixed.solve_triangular_lower twin_container None
    = Some [[key_byte; key_byte]; []].
Proof.
  destruct full_run_workload as (kb & σ & Hrun). exists kb.
  apply (run_twin _ _ twin_container None (0, 0)%Z (AverageTraces_init 256 2) kb σ).
  - reflexivity.
  - reflexivity.
  - reflexivity.
  - rewrite (run_workload_batches _ _ _ twin_container full_container)
      by reflexivity.
    exact Hrun.
Qed.

(** X27: when a tile is listed more than once in [container.tiles], the key
    of every later occurrence stays empty: [list.index] returns the first
    occurrence, so the bytes of all its units are appended there. *)
Theorem run_duplicate_tile_key_empty cholesky solve_triangular_lower
    container range keys i j tile :
  run cholesky solve_triangular_lower container range = Some keys →
  (i < j)%nat →
  tiles container !! i = Some tile → tiles container !! j = Some tile →
  keys !! j = Some [].
Proof. apply run_later_occurrence. Qed.

Lemma run_duplicate_tile_key_empty_witness :
  ∃ keys,
    run Fixed.cholesky Fixed.solve_triangular_lower twin_container None
    = Some keys ∧
    keys !! 1%nat = Some [].
Proof.
  destruct twin_run as [kb Hrun]. exists [[kb; kb]; []]. split; [exact Hrun|].
  apply (run_duplicate_tile_key_empty Fixed.cholesky Fixed.solve_triangular_lower
           twin_container None [[kb; kb]; []] 0 1 (0, 0)%Z Hrun).
  - lia.
  - reflexivity.
  - reflexivity.
Defined.

(** * When a run returns *)




Section run_progress.
Variable cholesky : list (list Z) → option (list (list Q)).
Variable solve_triangular_lower :
  list (list Q) → list (list Z) → option (list (list Q)).


End run_progress.


